(** * workflow-engine: the DAG engine, the scheduler and the trigger manager

    A shallow embedding of [engine.py], [scheduler.py] and [triggers.py].

    - Python [dict]s whose iteration order the code relies on (the task
      mapping of a DAG) are lists in insertion order with unique keys;
      the registries, which the code only reads by key, are [gmap]s.
    - Mutation is explicit state passing: a method returns the new object.
    - A Python call either returns or raises; a [while] loop is run with
      fuel, and running out of it is a third outcome, [OutOfFuel].
    - [datetime.now()] reads a logical clock that advances at each read. *)

From stdpp Require Import gmap strings list fin_maps.
From Stdlib Require Import ZArith Lia.

Local Open Scope Z_scope.

(** ** Outcomes of Python calls *)

Inductive exn : Type :=
  | KeyError (key : string)
  | ValueError (msg : string)
  | Exception (msg : string).

Inductive outcome (A : Type) : Type :=
  | Returned (a : A)
  | Raised (e : exn)
  | OutOfFuel.

Arguments Returned {A} a.
Arguments Raised {A} e.
Arguments OutOfFuel {A}.

Global Instance outcome_bind : MBind outcome := fun A B k c =>
  match c with
  | Returned a => k a
  | Raised e => Raised e
  | OutOfFuel => OutOfFuel
  end.

(** [for x in l: body], threading the state [s]. *)
Fixpoint for_each {S A : Type} (body : S -> A -> outcome S) (l : list A) (s : S)
    : outcome S :=
  match l with
  | [] => Returned s
  | a :: r => s' ← body s a; for_each body r s'
  end.

(** [d[k]] on a dict: a missing key raises [KeyError]. *)
Definition dict_get {V : Type} (d : gmap string V) (k : string) : outcome V :=
  match d !! k with
  | Some v => Returned v
  | None => Raised (KeyError k)
  end.

(** ** engine.py *)

Inductive TaskStatus : Type := PENDING | RUNNING | SUCCESS | FAILED | SKIPPED.

Global Instance TaskStatus_eq_dec : EqDecision TaskStatus.
Proof. solve_decision. Defined.

(** Python values that tasks take and return. *)
Inductive PyVal : Type :=
  | PyNone
  | PyInt (z : Z)
  | PyStr (s : string).

(** What one call of a task's executable does: it returns a value or
    raises an exception whose [str(e)] is [msg]. *)
Inductive call_result : Type :=
  | Returns (v : PyVal)
  | Raises (msg : string).

(** A Python callable may answer differently from one call to the next,
    so the answers of [func] are indexed by the attempt number (the value
    of [try_count] when the call is made) as well as by the keyword
    arguments. *)
Record Task : Type := mkTask {
  task_id : string;
  func : nat -> list (string * PyVal) -> call_result;
  params : list (string * PyVal);
  depends_on : list string;
  status : TaskStatus;
  result : option PyVal;
  error : option string;
  started_at : option nat;
  completed_at : option nat;
  try_count : nat
}.

(** [Task.__init__] *)
Definition new_Task (tid : string) (f : nat -> list (string * PyVal) -> call_result)
    (ps : list (string * PyVal)) (deps : list string) : Task :=
  {| task_id := tid; func := f; params := ps; depends_on := deps;
     status := PENDING; result := None; error := None;
     started_at := None; completed_at := None; try_count := 0 |}.

(** [Task.execute], given the answer [r] of the call of [self.func] on
    the keyword arguments [self.params].  The clock is read at the start
    and in the [finally] clause.  On success the result is stored and the
    status set; on failure the status and the error are set and the
    exception is raised again.  Nothing else is written: [error] is left
    as it was on the success path, and [result] on the failure path.
    The first component is the exception that leaves the call, if any. *)
Definition execute_with (r : call_result) (clock : nat) (t : Task)
    : option exn * Task * nat :=
  let t1 := {| task_id := task_id t; func := func t; params := params t;
               depends_on := depends_on t;
               status := RUNNING; result := result t; error := error t;
               started_at := Some clock; completed_at := completed_at t;
               try_count := S (try_count t) |} in
  match r with
  | Returns v =>
      (None,
       {| task_id := task_id t1; func := func t1; params := params t1;
          depends_on := depends_on t1;
          status := SUCCESS; result := Some v; error := error t1;
          started_at := started_at t1; completed_at := Some (S clock);
          try_count := try_count t1 |},
       S (S clock))
  | Raises msg =>
      (Some (Exception msg),
       {| task_id := task_id t1; func := func t1; params := params t1;
          depends_on := depends_on t1;
          status := FAILED; result := result t1; error := Some msg;
          started_at := started_at t1; completed_at := Some (S clock);
          try_count := try_count t1 |},
       S (S clock))
  end.

(** [Task.execute]: the executable is called after [try_count] has been
    incremented. *)
Definition execute (clock : nat) (t : Task) : option exn * Task * nat :=
  execute_with (func t (S (try_count t)) (params t)) clock t.

Record DAG : Type := mkDAG {
  dag_id : string;
  tasks : list Task;
  execution_order : list string
}.

(** [DAG.__init__] *)
Definition new_DAG (did : string) : DAG :=
  {| dag_id := did; tasks := []; execution_order := [] |}.

(** [tasks[task.task_id] = task] on the insertion-ordered mapping: an
    existing key keeps its place and gets the new value, a new key goes
    to the end. *)
Fixpoint tasks_set (ts : list Task) (t : Task) : list Task :=
  match ts with
  | [] => [t]
  | x :: r =>
      if decide (task_id x = task_id t) then t :: r else x :: tasks_set r t
  end.

(** [DAG.add_task] *)
Definition add_task (d : DAG) (t : Task) : DAG :=
  {| dag_id := dag_id d; tasks := tasks_set (tasks d) t;
     execution_order := execution_order d |}.

(** The keys of the task mapping, in insertion order. *)
Definition task_ids (ts : list Task) : list string := task_id <$> ts.

(** [in_degree = {tid: 0 for tid in self.tasks}] *)
Definition zero_in_degree (ts : list Task) : gmap string Z :=
  foldl (fun m t => <[task_id t := 0]> m) ∅ ts.

(** The body of [for dep in task.depends_on]: when [dep] is a key of
    [in_degree], the entry of the task goes up by one. *)
Definition count_dep (tid : string) (m : gmap string Z) (dep : string)
    : outcome (gmap string Z) :=
  if decide (is_Some (m !! dep)) then
    v ← dict_get m tid; Returned (<[tid := v + 1]> m)
  else Returned m.

(** The body of the first [for task in self.tasks.values()]. *)
Definition count_task (m : gmap string Z) (t : Task) : outcome (gmap string Z) :=
  for_each (count_dep (task_id t)) (depends_on t) m.

(** [queue = [tid for tid, deg in in_degree.items() if deg == 0]]; the
    items of [in_degree] come in the order of the task mapping, whose
    keys it was built from. *)
Definition zero_degree_ids (ts : list Task) (m : gmap string Z) : list string :=
  task_ids (filter (fun t => m !! task_id t = Some 0) ts).

(** The body of the [for task in self.tasks.values()] inside the [while]
    loop: a task that lists [current] has its entry decremented and is
    enqueued when the entry is then zero. *)
Definition relax (current : string) (st : gmap string Z * list string) (t : Task)
    : outcome (gmap string Z * list string) :=
  if decide (current ∈ depends_on t) then
    v ← dict_get st.1 (task_id t);
    if decide (v - 1 = 0)
    then Returned (<[task_id t := v - 1]> st.1, st.2 ++ [task_id t])
    else Returned (<[task_id t := v - 1]> st.1, st.2)
  else Returned st.

(** [while queue: ...], at most [fuel] iterations.  The state is
    [in_degree], [queue] and [self.execution_order]. *)
Fixpoint kahn_loop (fuel : nat) (ts : list Task) (m : gmap string Z)
    (queue order : list string) : outcome (list string) :=
  match queue with
  | [] => Returned order
  | current :: queue' =>
      match fuel with
      | O => OutOfFuel
      | S fuel' =>
          st ← for_each (relax current) ts (m, queue');
          kahn_loop fuel' ts st.1 st.2 (order ++ [current])
      end
  end.

(** [DAG.topological_sort] with [fuel] iterations of the [while] loop:
    the order, and the DAG with [execution_order] set to it. *)
Definition topological_sort_fuel (fuel : nat) (d : DAG) : outcome (list string * DAG) :=
  m ← for_each count_task (tasks d) (zero_in_degree (tasks d));
  order ← kahn_loop fuel (tasks d) m (zero_degree_ids (tasks d) m) [];
  Returned (order, {| dag_id := dag_id d; tasks := tasks d;
                      execution_order := order |}).

(** Each iteration of the [while] loop moves one key to the order, and no
    key is enqueued twice ([kahn_loop_total] below), so as many
    iterations as there are tasks are enough. *)
Definition topological_sort (d : DAG) : outcome (list string * DAG) :=
  topological_sort_fuel (length (tasks d)) d.

(** [DAG.get_ready_tasks]: the loop appends, in the order of the mapping,
    each task that is [PENDING] and all of whose dependencies are in
    [completed]. *)
Definition get_ready_tasks (d : DAG) (completed : list string) : list Task :=
  foldl (fun ready task =>
           if decide (status task = PENDING) then
             if decide (Forall (fun dep => dep ∈ completed) (depends_on task))
             then ready ++ [task]
             else ready
           else ready)
        [] (tasks d).

(** A run record, the dict that [run_dag] builds. *)
Record Run : Type := mkRun {
  run_id : string;
  run_dag_id : string;
  run_status : string;
  run_started_at : nat;
  run_completed_at : option nat;
  tasks_completed : list string;
  tasks_failed : list string
}.

(** The engine: the registries [dags] and [runs], and the files of the
    storage directory, [storage !! rid] being the content of
    [<storage_path>/<rid>.json]. *)
Record WorkflowEngine : Type := mkEngine {
  storage_path : string;
  dags : gmap string DAG;
  runs : gmap string Run;
  storage : gmap string Run
}.

(** [WorkflowEngine.__init__] on an empty storage directory. *)
Definition new_WorkflowEngine (path : string) : WorkflowEngine :=
  {| storage_path := path; dags := ∅; runs := ∅; storage := ∅ |}.

(** [WorkflowEngine.register_dag] *)
Definition register_dag (e : WorkflowEngine) (d : DAG) : WorkflowEngine :=
  {| storage_path := storage_path e; dags := <[dag_id d := d]> (dags e);
     runs := runs e; storage := storage e |}.

(** [l[:n]]: a negative [n] counts from the end. *)
Definition slice_to {A : Type} (l : list A) (n : Z) : list A :=
  if decide (0 <= n) then take (Z.to_nat n) l
  else take (length l - Z.to_nat (- n))%nat l.

(** The Task object stored under a key of the mapping. *)
Fixpoint tasks_get (ts : list Task) (tid : string) : option Task :=
  match ts with
  | [] => None
  | x :: r => if decide (task_id x = tid) then Some x else tasks_get r tid
  end.

(** The variables of the [while] loop of [run_dag]: the tasks of the DAG
    (the objects that [execute] mutates), [completed], [failed], the
    [run] dict and the clock. *)
Record loop_state : Type := mkLoop {
  ls_tasks : list Task;
  ls_completed : list string;
  ls_failed : list string;
  ls_run : Run;
  ls_clock : nat
}.

(** The body of [for task in ready_tasks[:max_parallel]].  [task] is one
    of the objects of the mapping: it is read there when it is executed
    and written back there.  The exception that [execute] raises is
    caught. *)
Definition run_task (st : loop_state) (task : Task) : loop_state :=
  match tasks_get (ls_tasks st) (task_id task) with
  | None => st
  | Some t =>
      let '(raised, t', clock') := execute (ls_clock st) t in
      let run := ls_run st in
      match raised with
      | None =>
          {| ls_tasks := tasks_set (ls_tasks st) t';
             ls_completed := ls_completed st ++ [task_id t'];
             ls_failed := ls_failed st;
             ls_run := {| run_id := run_id run; run_dag_id := run_dag_id run;
                          run_status := run_status run;
                          run_started_at := run_started_at run;
                          run_completed_at := run_completed_at run;
                          tasks_completed := tasks_completed run ++ [task_id t'];
                          tasks_failed := tasks_failed run |};
             ls_clock := clock' |}
      | Some _ =>
          {| ls_tasks := tasks_set (ls_tasks st) t';
             ls_completed := ls_completed st;
             ls_failed := ls_failed st ++ [task_id t'];
             ls_run := {| run_id := run_id run; run_dag_id := run_dag_id run;
                          run_status := run_status run;
                          run_started_at := run_started_at run;
                          run_completed_at := run_completed_at run;
                          tasks_completed := tasks_completed run;
                          tasks_failed := tasks_failed run ++ [task_id t'] |};
             ls_clock := clock' |}
      end
  end.

(** The body of the [while] loop: the ready tasks are computed once, then
    the first [max_parallel] of them are executed in turn
    ([time.sleep] changes nothing). *)
Definition run_iteration (max_parallel : Z) (st : loop_state) : loop_state :=
  let dag := {| dag_id := ""; tasks := ls_tasks st; execution_order := [] |} in
  let ready_tasks := get_ready_tasks dag (ls_completed st) in
  foldl run_task st (slice_to ready_tasks max_parallel).

(** [while len(completed) + len(failed) < len(dag.tasks)], at most [fuel]
    iterations. *)
Fixpoint run_loop (fuel : nat) (max_parallel : Z) (st : loop_state)
    : outcome loop_state :=
  if decide (length (ls_completed st) + length (ls_failed st)
             < length (ls_tasks st))%nat
  then match fuel with
       | O => OutOfFuel
       | S fuel' => run_loop fuel' max_parallel (run_iteration max_parallel st)
       end
  else Returned st.

Section RunDag.

(** [hashlib.md5(f"{dag_id}{datetime.now()}".encode()).hexdigest()[:12]]:
    the first twelve hex digits of the digest of the DAG id followed by
    the time. *)
Variable run_digest : string -> nat -> string.

(** The variables of the loop when it is entered: the run id and the
    start time are taken from two readings of the clock. *)
Definition run_start (dag : DAG) (did : string) (clock : nat) : loop_state :=
  {| ls_tasks := tasks dag; ls_completed := []; ls_failed := [];
     ls_run := {| run_id := run_digest did clock; run_dag_id := did;
                  run_status := "running";
                  run_started_at := S clock; run_completed_at := None;
                  tasks_completed := []; tasks_failed := [] |};
     ls_clock := S (S clock) |}.

(** The run dict after the loop: the status is "completed" when [failed]
    is empty and "failed" otherwise, and the end time is set. *)
Definition run_finish (st : loop_state) : Run :=
  let run := ls_run st in
  {| run_id := run_id run; run_dag_id := run_dag_id run;
     run_status := match ls_failed st with
                   | [] => "completed"
                   | _ :: _ => "failed"
                   end;
     run_started_at := run_started_at run;
     run_completed_at := Some (ls_clock st);
     tasks_completed := tasks_completed run;
     tasks_failed := tasks_failed run |}.

(** [WorkflowEngine.run_dag].  The outcome carries the run id, the engine
    after the run and the clock.  The DAG of the registry is the object
    whose tasks the loop executes, and the entry of [self.runs] is the
    [run] dict that the loop fills, so both are written back with their
    last state; [_save_run] writes the same dict to the storage. *)
Definition run_dag (fuel : nat) (e : WorkflowEngine) (did : string)
    (max_parallel : Z) (clock : nat) : outcome (string * WorkflowEngine * nat) :=
  match dags e !! did with
  | None => Raised (ValueError ("DAG " +:+ did +:+ " not found"))
  | Some dag =>
      sorted ← topological_sort dag;
      let dag := sorted.2 in
      st ← run_loop fuel max_parallel (run_start dag did clock);
      let run := run_finish st in
      let dag := {| dag_id := dag_id dag; tasks := ls_tasks st;
                    execution_order := execution_order dag |} in
      Returned (run_id run,
                {| storage_path := storage_path e;
                   dags := <[did := dag]> (dags e);
                   runs := <[run_id run := run]> (runs e);
                   storage := <[run_id run := run]> (storage e) |},
                S (ls_clock st))
  end.

End RunDag.

(** [WorkflowEngine.get_run]: the record read back from the storage
    directory, [None] when there is no file. *)
Definition get_run (e : WorkflowEngine) (rid : string) : option Run :=
  storage e !! rid.

(** ** scheduler.py *)

Record Schedule : Type := mkSchedule {
  sched_dag_id : string;
  schedule_type : string;
  interval : option Z;
  enabled : bool;
  last_run : option nat;
  next_run : option Z
}.

(** [Schedule.__init__] *)
Definition new_Schedule (did kind : string) (ival : option Z) : Schedule :=
  {| sched_dag_id := did; schedule_type := kind; interval := ival;
     enabled := true; last_run := None; next_run := None |}.

Definition with_next_run (s : Schedule) (t : Z) : Schedule :=
  {| sched_dag_id := sched_dag_id s; schedule_type := schedule_type s;
     interval := interval s; enabled := enabled s; last_run := last_run s;
     next_run := Some t |}.

(** [Schedule.calculate_next_run], the clock being in seconds.  The
    branches are those of the source: "daily", "hourly", and "interval"
    with a truthy interval (neither [None] nor zero); anything else leaves
    [next_run] as it was.  The clock is read in the branches that assign. *)
Definition calculate_next_run (clock : nat) (s : Schedule) : Schedule * nat :=
  if decide (schedule_type s = "daily") then
    (with_next_run s (Z.of_nat clock + 86400), S clock)
  else if decide (schedule_type s = "hourly") then
    (with_next_run s (Z.of_nat clock + 3600), S clock)
  else if decide (schedule_type s = "interval") then
    match interval s with
    | Some i => if decide (i = 0) then (s, clock)
                else (with_next_run s (Z.of_nat clock + i), S clock)
    | None => (s, clock)
    end
  else (s, clock).

(** [Schedule.should_run] *)
Definition should_run (clock : nat) (s : Schedule) : bool :=
  if negb (enabled s) then false
  else match next_run s with
       | None => true
       | Some t => bool_decide (t <= Z.of_nat clock)
       end.

(** [Schedule.to_dict], the record that is written to the snapshot. *)
Record ScheduleDict : Type := mkScheduleDict {
  d_dag_id : string;
  d_schedule_type : string;
  d_interval : option Z;
  d_enabled : bool;
  d_last_run : option nat;
  d_next_run : option Z
}.

Definition to_dict (s : Schedule) : ScheduleDict :=
  {| d_dag_id := sched_dag_id s; d_schedule_type := schedule_type s;
     d_interval := interval s; d_enabled := enabled s;
     d_last_run := last_run s; d_next_run := next_run s |}.

(** The scheduler: the registry and the content of
    [<storage_path>/schedules.json], [None] while the file does not
    exist. *)
Record Scheduler : Type := mkScheduler {
  schedules : gmap string Schedule;
  snapshot : option (gmap string ScheduleDict)
}.

(** [Scheduler.__init__] on an empty storage directory. *)
Definition new_Scheduler : Scheduler :=
  {| schedules := ∅; snapshot := None |}.

(** [Scheduler._save_schedules]: the file is rewritten as a whole. *)
Definition save_schedules (s : Scheduler) : Scheduler :=
  {| schedules := schedules s; snapshot := Some (to_dict <$> schedules s) |}.

(** [Scheduler.add_schedule]: the schedule is registered under its
    [dag_id], its [next_run] is computed (on the registered object) and
    the snapshot is written.  No branch raises. *)
Definition add_schedule (clock : nat) (s : Scheduler) (sched : Schedule)
    : outcome (Scheduler * nat) :=
  let '(sched', clock') := calculate_next_run clock sched in
  Returned (save_schedules {| schedules := <[sched_dag_id sched := sched']> (schedules s);
                              snapshot := snapshot s |},
            clock').

(** [Scheduler.remove_schedule] *)
Definition remove_schedule (s : Scheduler) (did : string) : outcome Scheduler :=
  if decide (is_Some (schedules s !! did)) then
    Returned (save_schedules {| schedules := delete did (schedules s);
                                snapshot := snapshot s |})
  else Returned s.

Definition with_enabled (sched : Schedule) (b : bool) : Schedule :=
  {| sched_dag_id := sched_dag_id sched; schedule_type := schedule_type sched;
     interval := interval sched; enabled := b; last_run := last_run sched;
     next_run := next_run sched |}.

(** [Scheduler.enable_schedule] *)
Definition enable_schedule (s : Scheduler) (did : string) : outcome Scheduler :=
  match schedules s !! did with
  | Some sched =>
      Returned (save_schedules {| schedules := <[did := with_enabled sched true]> (schedules s);
                                  snapshot := snapshot s |})
  | None => Returned s
  end.

(** [Scheduler.disable_schedule] *)
Definition disable_schedule (s : Scheduler) (did : string) : outcome Scheduler :=
  match schedules s !! did with
  | Some sched =>
      Returned (save_schedules {| schedules := <[did := with_enabled sched false]> (schedules s);
                                  snapshot := snapshot s |})
  | None => Returned s
  end.

(** [Scheduler.mark_run]: [last_run] is set to the time read, then
    [next_run] is recomputed and the snapshot written. *)
Definition mark_run (clock : nat) (s : Scheduler) (did : string)
    : outcome (Scheduler * nat) :=
  match schedules s !! did with
  | Some sched =>
      let sched1 := {| sched_dag_id := sched_dag_id sched;
                       schedule_type := schedule_type sched;
                       interval := interval sched; enabled := enabled sched;
                       last_run := Some clock; next_run := next_run sched |} in
      let '(sched2, clock') := calculate_next_run (S clock) sched1 in
      Returned (save_schedules {| schedules := <[did := sched2]> (schedules s);
                                  snapshot := snapshot s |},
                clock')
  | None => Returned (s, clock)
  end.

(** ** triggers.py *)

Inductive TriggerType : Type := MANUAL | WEBHOOK | SCHEDULED | DEPENDENCY | SENSOR.

Record Trigger : Type := mkTrigger {
  trigger_id : string;
  trigger_type : TriggerType;
  config : list (string * PyVal);
  created_at : nat;
  last_triggered : option nat
}.

(** The trigger manager: the triggers, and the fan-out mapping from a
    trigger id to the list of the DAG ids that listen to it. *)
Record TriggerManager : Type := mkTriggerManager {
  triggers : gmap string Trigger;
  listeners : gmap string (list string)
}.

(** [TriggerManager.__init__] *)
Definition new_TriggerManager : TriggerManager :=
  {| triggers := ∅; listeners := ∅ |}.

(** [TriggerManager.register_trigger] *)
Definition register_trigger (tm : TriggerManager) (t : Trigger) : TriggerManager :=
  {| triggers := <[trigger_id t := t]> (triggers tm); listeners := listeners tm |}.

(** [TriggerManager.add_listener]: a missing entry is created empty, and
    the DAG id is appended unless it is in the list already. *)
Definition add_listener (tm : TriggerManager) (tid did : string) : TriggerManager :=
  let ls := match listeners tm !! tid with
            | None => <[tid := []]> (listeners tm)
            | Some _ => listeners tm
            end in
  let l := default [] (ls !! tid) in
  {| triggers := triggers tm;
     listeners := if decide (did ∈ l) then ls else <[tid := l ++ [did]]> ls |}.

(** [TriggerManager.remove_listener] *)
Definition remove_listener (tm : TriggerManager) (tid did : string) : TriggerManager :=
  match listeners tm !! tid with
  | Some l =>
      {| triggers := triggers tm;
         listeners := <[tid := filter (fun d => d ≠ did) l]> (listeners tm) |}
  | None => tm
  end.

(** What [TriggerManager.fire_trigger] returns for a known trigger. *)
Record Firing : Type := mkFiring {
  f_trigger_id : string;
  f_trigger_type : TriggerType;
  fired_at : nat;
  payload : list (string * PyVal);
  triggered_dags : list string
}.

(** [TriggerManager.fire_trigger]: [None] for an unknown trigger;
    otherwise [Trigger.fire] stamps the trigger and the listeners of the
    trigger are added to what it returns. *)
Definition fire_trigger (clock : nat) (tm : TriggerManager) (tid : string)
    (pl : list (string * PyVal)) : option Firing * TriggerManager * nat :=
  match triggers tm !! tid with
  | None => (None, tm, clock)
  | Some t =>
      let t' := {| trigger_id := trigger_id t; trigger_type := trigger_type t;
                   config := config t; created_at := created_at t;
                   last_triggered := Some clock |} in
      (Some {| f_trigger_id := trigger_id t; f_trigger_type := trigger_type t;
               fired_at := clock; payload := pl;
               triggered_dags := default [] (listeners tm !! tid) |},
       {| triggers := <[tid := t']> (triggers tm); listeners := listeners tm |},
       S clock)
  end.

(** The calls that change a trigger manager, and a history of them. *)
Inductive tm_call : Type :=
  | RegisterTrigger (t : Trigger)
  | AddListener (tid did : string)
  | RemoveListener (tid did : string)
  | FireTrigger (clock : nat) (tid : string) (pl : list (string * PyVal)).

Definition tm_step (tm : TriggerManager) (c : tm_call) : TriggerManager :=
  match c with
  | RegisterTrigger t => register_trigger tm t
  | AddListener tid did => add_listener tm tid did
  | RemoveListener tid did => remove_listener tm tid did
  | FireTrigger clock tid pl => (fire_trigger clock tm tid pl).1.2
  end.

(** The manager after the calls of [history], from a new one. *)
Definition tm_after (history : list tm_call) : TriggerManager :=
  foldl tm_step new_TriggerManager history.


(** ** engine.py: the reports *)

From stdpp Require Import pretty.

Local Open Scope Z_scope.

(** [TaskStatus.value] *)
Definition status_value (s : TaskStatus) : string :=
  match s with
  | PENDING => "pending"
  | RUNNING => "running"
  | SUCCESS => "success"
  | FAILED => "failed"
  | SKIPPED => "skipped"
  end.





(** [WorkflowEngine.list_runs]: the records of [self.runs], all of them
    when [dag_id] is [None] and those of the DAG otherwise.  The registry
    is a map, which does not record the order of insertion: the records
    come in the order of its items, each once. *)
Definition list_runs (e : WorkflowEngine) (did : option string) : list Run :=
  filter (fun run => did = None ∨ did = Some (run_dag_id run))
         ((map_to_list (runs e)).*2).

(** What [WorkflowEngine.get_dag_status] returns: the error dict for an
    unknown DAG, and otherwise the DAG id, the number of tasks, the
    constant "registered" and the status of each task. *)
Inductive DagStatus : Type :=
  | StatusError (msg : string)
  | StatusOf (did : string) (total_tasks : nat) (st : string)
             (task_statuses : list (string * string)).

(** [WorkflowEngine.get_dag_status] *)
Definition get_dag_status (e : WorkflowEngine) (did : string) : DagStatus :=
  match dags e !! did with
  | None => StatusError "DAG not found"
  | Some dag =>
      StatusOf did (length (tasks dag)) "registered"
               ((fun t => (task_id t, status_value (status t))) <$> tasks dag)
  end.

(** ** scheduler.py: loading, polling and the cron parser *)

(** [Scheduler.__init__] on a storage directory whose [schedules.json]
    holds [snap] ([None] when there is no file): [_load_schedules]
    builds a schedule for each item from the key, the kind, the interval
    and the flag; [last_run] and [next_run] are those of a new
    schedule. *)
Definition load_Scheduler (snap : option (gmap string ScheduleDict)) : Scheduler :=
  {| schedules :=
       match snap with
       | None => ∅
       | Some data =>
           map_imap (fun did sd =>
                       Some {| sched_dag_id := did;
                               schedule_type := d_schedule_type sd;
                               interval := d_interval sd;
                               enabled := d_enabled sd;
                               last_run := None; next_run := None |})
                    data
       end;
     snapshot := snap |}.

(** [Schedule.should_run] with the clock: the time is read only when the
    schedule is enabled and has a [next_run]. *)
Definition should_run_at (clock : nat) (s : Schedule) : bool * nat :=
  if negb (enabled s) then (false, clock)
  else match next_run s with
       | None => (true, clock)
       | Some t => (bool_decide (t <= Z.of_nat clock), S clock)
       end.

(** The body of the loop of [get_pending_runs]. *)
Definition pending_step (acc : list string * nat) (item : string * Schedule)
    : list string * nat :=
  let '(b, clock') := should_run_at acc.2 item.2 in
  (if b then acc.1 ++ [item.1] else acc.1, clock').

(** [Scheduler.get_pending_runs]: the loop goes through the items of the
    registry, reading the clock for each schedule that needs it, and
    appends the DAG ids of the schedules that should run.  The registry
    is a map, which does not record the order of insertion: the items
    come in the order of the map, each once. *)
Definition get_pending_runs (clock : nat) (s : Scheduler) : list string * nat :=
  foldl pending_step ([], clock) (map_to_list (schedules s)).

(** [Scheduler.list_schedules] *)
Definition list_schedules (s : Scheduler) : list ScheduleDict :=
  to_dict <$> (map_to_list (schedules s)).*2.




(** [str.isspace] on a character, the characters being code points
    below 256: the ASCII white space and separators, NEL and the
    no-break space. *)
Definition isspace (c : Ascii.ascii) : bool :=
  let n := Ascii.nat_of_ascii c in
  bool_decide ((9 <= n <= 13)%nat ∨ (28 <= n <= 32)%nat ∨ n = 133%nat ∨ n = 160%nat).

(** [s.split()]: the maximal runs of characters that are not white
    space.  [word] is the run being read. *)
Fixpoint split_from (word : string) (s : string) : list string :=
  match s with
  | EmptyString => if decide (word = EmptyString) then [] else [word]
  | String c r =>
      if isspace c then
        if decide (word = EmptyString) then split_from EmptyString r
        else word :: split_from EmptyString r
      else split_from (word +:+ String c EmptyString) r
  end.

Definition split (s : string) : list string := split_from EmptyString s.

(** [CronParser.parse] *)
Definition parse (cron_expr : string) : outcome Schedule :=
  let parts := split cron_expr in
  if decide (length parts < 5)%nat then Raised (ValueError "Invalid cron expression")
  else Returned (new_Schedule "default" "custom" (Some 60)).

(** [CronParser.validate]: the bare [except] catches whatever [parse]
    raises. *)
Definition validate (cron_expr : string) : bool :=
  match parse cron_expr with
  | Returned _ => true
  | _ => false
  end.

(** ** triggers.py: the reports *)

(** [TriggerType.value] *)
Definition trigger_type_value (ty : TriggerType) : string :=
  match ty with
  | MANUAL => "manual"
  | WEBHOOK => "webhook"
  | SCHEDULED => "scheduled"
  | DEPENDENCY => "dependency"
  | SENSOR => "sensor"
  end.

(** [Trigger.__init__]: the creation time is read from the clock. *)
Definition new_Trigger (clock : nat) (tid : string) (ty : TriggerType)
    (cfg : list (string * PyVal)) : Trigger * nat :=
  ({| trigger_id := tid; trigger_type := ty; config := cfg;
      created_at := clock; last_triggered := None |}, S clock).

(** The dict that [Trigger.to_dict] returns. *)
Record TriggerDict : Type := mkTriggerDict {
  tr_trigger_id : string;
  tr_trigger_type : string;
  tr_config : list (string * PyVal);
  tr_created_at : nat;
  tr_last_triggered : option nat
}.

(** [Trigger.to_dict] *)
Definition Trigger_to_dict (t : Trigger) : TriggerDict :=
  {| tr_trigger_id := trigger_id t;
     tr_trigger_type := trigger_type_value (trigger_type t);
     tr_config := config t;
     tr_created_at := created_at t;
     tr_last_triggered := last_triggered t |}.

(** [TriggerManager.get_trigger] *)
Definition get_trigger (tm : TriggerManager) (tid : string) : option TriggerDict :=
  Trigger_to_dict <$> triggers tm !! tid.

(** ** api.py: the handlers of runs *)


(** ** Concrete objects used in the examples *)

(** An executable that always returns. *)
Definition always_ok : nat -> list (string * PyVal) -> call_result :=
  fun _ _ => Returns PyNone.

(** An executable that always raises. *)
Definition always_fails : nat -> list (string * PyVal) -> call_result :=
  fun _ _ => Raises "boom".

(** An executable that raises at its first call and returns afterwards. *)
Definition fails_once : nat -> list (string * PyVal) -> call_result :=
  fun attempt _ =>
    match attempt with
    | 1%nat => Raises "boom"
    | _ => Returns (PyInt 1)
    end.

(** A run id generator for the examples: the DAG id itself. *)
Definition digest_of_id : string -> nat -> string := fun did _ => did.

(** The DAG of the repository's example: [task_2] and [task_3] depend on
    [task_1]. *)
Definition sample_dag : DAG :=
  add_task (add_task (add_task (new_DAG "sample_dag")
    (new_Task "task_1" always_ok [] []))
    (new_Task "task_2" always_ok [] ["task_1"]))
    (new_Task "task_3" always_ok [] ["task_1"]).

(** [b] lists its only dependency [a] twice. *)
Definition twice_dag : DAG :=
  add_task (add_task (new_DAG "twice")
    (new_Task "a" always_ok [] []))
    (new_Task "b" always_ok [] ["a"; "a"]).

(** [a] and [b] depend on each other, [c] on nothing. *)
Definition cyclic_dag : DAG :=
  add_task (add_task (add_task (new_DAG "cyclic")
    (new_Task "a" always_ok [] ["b"]))
    (new_Task "b" always_ok [] ["a"]))
    (new_Task "c" always_ok [] []).

(** One task that succeeds and one that always fails. *)
Definition failing_dag : DAG :=
  add_task (add_task (new_DAG "failing")
    (new_Task "good" always_ok [] []))
    (new_Task "bad" always_fails [] []).


(** [child] depends on [bad], which always fails. *)
Definition blocked_dag : DAG :=
  add_task (add_task (new_DAG "blocked")
    (new_Task "bad" always_fails [] []))
    (new_Task "child" always_ok [] ["bad"]).

(** A scheduler with one daily schedule, which has not been saved. *)
Definition etl_scheduler : Scheduler :=
  {| schedules := {[ "etl" := new_Schedule "etl" "daily" None ]};
     snapshot := None |}.
(** ** The vocabulary of the properties *)

(** The tasks that the specification calls ready: pending, with every
    dependency in the completed set. *)
Definition ready (completed : list string) (t : Task) : Prop :=
  status t = PENDING ∧ Forall (fun dep => dep ∈ completed) (depends_on t).

Global Instance ready_dec completed t : Decision (ready completed t).
Proof. unfold ready. apply _. Defined.

(** The invariant of the data model: not both [SUCCESS] and a non-empty
    error. *)
Definition success_without_error (t : Task) : Prop :=
  status t = SUCCESS → error t = None ∨ error t = Some "".

(** The keys of the task mapping of a DAG are distinct: the mapping is a
    dict. *)
Definition wf_DAG (d : DAG) : Prop := NoDup (task_ids (tasks d)).

(** [a] is a dependency of the task [b], and both are keys of the
    mapping: an edge of the dependency graph. *)
Definition dep_edge (d : DAG) (a b : string) : Prop :=
  ∃ t, t ∈ tasks d ∧ task_id t = b ∧ a ∈ depends_on t ∧ a ∈ task_ids (tasks d).

(** The graph has a cycle: some task depends on itself through one or
    more edges. *)
Definition has_cycle (d : DAG) : Prop := ∃ x, tc (dep_edge d) x x.

(** [a] comes before [b] in [order]. *)
Definition before (order : list string) (a b : string) : Prop :=
  ∃ i j, (i < j)%nat ∧ order !! i = Some a ∧ order !! j = Some b.

(** What [topological_sort] returns for [d] when it returns [order]. *)
Definition sorted_as (d : DAG) (order : list string) : list string * DAG :=
  (order, {| dag_id := dag_id d; tasks := tasks d; execution_order := order |}).

(** A task of [ts_before] ends a run as failed when the run has executed it
    (its attempt counter is one more than before) and left it [FAILED]. *)
Definition failed_in_run (ts_before ts_after : list Task) (x : string) : Prop :=
  ∃ t0 t, t0 ∈ ts_before ∧ t ∈ ts_after ∧ task_id t0 = x ∧ task_id t = x
          ∧ try_count t = S (try_count t0) ∧ status t = FAILED.

(** A task of the loop state has been executed at most once since the
    loop was entered. *)
Definition executed_at_most_once (t0 t : Task) : Prop :=
  task_id t = task_id t0
  ∧ (try_count t = try_count t0
     ∨ (try_count t = S (try_count t0) ∧ status t0 = PENDING
        ∧ status t ≠ PENDING)).


(** What the executable of [t] answers when [t] is executed next: it is
    called with the attempt number that [execute] has just set. *)
Definition attempt (t : Task) : call_result :=
  func t (S (try_count t)) (params t).

(** The number of tasks that the loop of [run_dag] has dealt with. *)
Definition handled (st : loop_state) : nat :=
  (length (ls_completed st) + length (ls_failed st))%nat.

(** A task that [run_dag] can never execute: it is not pending when the
    run begins, or one of its dependencies is no key of the mapping, or
    is the key of a task whose executable raises. *)
Definition never_ready (d : DAG) (t : Task) : Prop :=
  status t ≠ PENDING
  ∨ ∃ dep, dep ∈ depends_on t
      ∧ ((dep ∉ task_ids (tasks d))
         ∨ ∃ t', t' ∈ tasks d ∧ task_id t' = dep ∧ ∃ msg, attempt t' = Raises msg).

(** How a task [t'] that a run leaves stands to the task [t] it was: it
    has been executed once, and it is [SUCCESS] and in [completed] when
    its executable returned, [FAILED] and in [failed] when it raised. *)
Definition executed_once (completed failed : list string) (t t' : Task) : Prop :=
  task_id t = task_id t' ∧ status t = PENDING
  ∧ try_count t' = S (try_count t)
  ∧ ((status t' = SUCCESS ∧ task_id t' ∈ completed ∧ ∃ v, attempt t = Returns v)
     ∨ (status t' = FAILED ∧ task_id t' ∈ failed ∧ ∃ msg, attempt t = Raises msg)).

(** The period of a schedule: a day, an hour, or the interval in
    seconds; none for an interval that is missing or zero and for any
    other kind. *)
Definition period_of (s : Schedule) : option Z :=
  if decide (schedule_type s = "daily") then Some 86400
  else if decide (schedule_type s = "hourly") then Some 3600
  else if decide (schedule_type s = "interval") then
    match interval s with
    | Some i => if decide (i = 0) then None else Some i
    | None => None
    end
  else None.

(** What a schedule is after the scheduler has been restarted: the key,
    the kind, the interval and the flag are kept, the times are not. *)
Definition reloaded (did : string) (s : Schedule) : Schedule :=
  {| sched_dag_id := did; schedule_type := schedule_type s;
     interval := interval s; enabled := enabled s;
     last_run := None; next_run := None |}.


(** A word: a string that is not empty and holds no white space. *)
Fixpoint no_space (s : string) : Prop :=
  match s with
  | EmptyString => True
  | String c r => isspace c = false ∧ no_space r
  end.

Definition word (s : string) : Prop := s ≠ EmptyString ∧ no_space s.

(** The words separated by single spaces. *)
Fixpoint join_words (ws : list string) : string :=
  match ws with
  | [] => EmptyString
  | [w] => w
  | w :: r => w +:+ " " +:+ join_words r
  end.


(** The listeners that [fire_trigger] reads for a trigger id:
    [self.listeners.get(trigger_id, [])]. *)
Definition listeners_of (tm : TriggerManager) (tid : string) : list string :=
  default [] (listeners tm !! tid).

(** Whether, in a history of calls, the last call of [add_listener] or
    [remove_listener] for the pair is an [add_listener]. *)
Definition listening (history : list tm_call) (tid did : string) : bool :=
  foldl (fun b c =>
           match c with
           | AddListener t d => if decide (t = tid ∧ d = did) then true else b
           | RemoveListener t d => if decide (t = tid ∧ d = did) then false else b
           | _ => b
           end)
        false history.
(** * Properties *)

(** ** Ready tasks *)

Lemma get_ready_tasks_acc (ts acc : list Task) (completed : list string) :
  foldl (fun ready task =>
           if decide (status task = PENDING) then
             if decide (Forall (fun dep => dep ∈ completed) (depends_on task))
             then ready ++ [task]
             else ready
           else ready) acc ts
  = acc ++ filter (ready completed) ts.
Proof.
  revert acc. induction ts as [|t ts IH]; intros acc; simpl.
  - by rewrite app_nil_r.
  - rewrite IH, filter_cons.
    destruct (decide (ready completed t)) as [[Hs Hd]|Hn].
    + rewrite !decide_True by done. by rewrite <- app_assoc.
    + destruct (decide (status t = PENDING)) as [Hs|Hs]; [|done].
      destruct (decide (Forall (fun dep => dep ∈ completed) (depends_on t)))
        as [Hd|Hd]; [|done].
      by destruct Hn.
Qed.

Lemma get_ready_tasks_filter (d : DAG) (completed : list string) :
  get_ready_tasks d completed = filter (ready completed) (tasks d).
Proof. unfold get_ready_tasks. by rewrite get_ready_tasks_acc. Qed.

(** C4. [get_ready_tasks] returns exactly the tasks that are [PENDING]
    and whose whole dependency list is in the completed set, in the
    insertion order of the task mapping: it is the task list filtered by
    that condition, so a task is returned iff it is in the mapping, is
    pending and has every dependency completed, and the result is a
    sublist of the mapping. *)
Theorem get_ready_tasks_exact (d : DAG) (completed : list string) :
  get_ready_tasks d completed = filter (ready completed) (tasks d)
  ∧ (∀ t, t ∈ get_ready_tasks d completed ↔
          t ∈ tasks d ∧ status t = PENDING
          ∧ ∀ dep, dep ∈ depends_on t → dep ∈ completed)
  ∧ sublist (get_ready_tasks d completed) (tasks d).
Proof.
  rewrite get_ready_tasks_filter. split; [done|]. split.
  - intros t. rewrite list_elem_of_filter. unfold ready.
    rewrite Forall_forall. tauto.
  - apply sublist_filter.
Qed.

(** ** Task execution *)

Lemma execute_with_try_count r clock t :
  try_count (execute_with r clock t).1.2 = S (try_count t).
Proof. by destruct r. Qed.

Lemma execute_with_task_id r clock t :
  task_id (execute_with r clock t).1.2 = task_id t.
Proof. by destruct r. Qed.

Lemma execute_with_depends_on r clock t :
  depends_on (execute_with r clock t).1.2 = depends_on t.
Proof. by destruct r. Qed.

Lemma execute_with_status r clock t :
  match (execute_with r clock t).1.1 with
  | None => status (execute_with r clock t).1.2 = SUCCESS
  | Some _ => status (execute_with r clock t).1.2 = FAILED
  end.
Proof. by destruct r. Qed.

(** A task that has never failed keeps the invariant through any
    execution: the success path leaves [error] as it was. *)
Lemma execute_with_keeps_no_error r clock t :
  error t = None → success_without_error (execute_with r clock t).1.2.
Proof. intros He. destruct r; unfold success_without_error; simpl; [by left|done]. Qed.

(** C5 (the code breaks it).  A task whose executable raises at the first
    call and returns at the second reports, after two calls of
    [execute], the status [SUCCESS] together with the error of the first
    call. *)
Theorem execute_success_keeps_stale_error :
  let t0 := new_Task "t" fails_once [] [] in
  let t1 := (execute 0 t0).1.2 in
  let t2 := (execute 2 t1).1.2 in
  status t1 = FAILED ∧ error t1 = Some "boom"
  ∧ status t2 = SUCCESS ∧ error t2 = Some "boom" ∧ try_count t2 = 2%nat.
Proof. by vm_compute. Qed.

(** ** Unknown DAG ids *)

(** C3 (counterexample).  On an engine with no DAG, [run_dag] does not
    return a value that stands for absence: it raises [ValueError]. *)
Lemma run_dag_unknown_raises_example :
  run_dag digest_of_id 10 (new_WorkflowEngine "workflows") "missing" 4 0
  = Raised (ValueError "DAG missing not found").
Proof. reflexivity. Qed.

(** C3 (amended).  For every dag_id that is not in the registry,
    [run_dag] raises [ValueError] with the message "DAG <dag_id> not
    found"; nothing is returned, so no run is created. *)
Theorem run_dag_unknown_raises (digest : string → nat → string) (fuel : nat)
    (e : WorkflowEngine) (did : string) (max_parallel : Z) (clock : nat) :
  dags e !! did = None →
  run_dag digest fuel e did max_parallel clock
  = Raised (ValueError ("DAG " +:+ did +:+ " not found")).
Proof. intros H. unfold run_dag. by rewrite H. Qed.

Lemma run_dag_unknown_raises_witness :
  run_dag digest_of_id 10 (new_WorkflowEngine "workflows") "missing" 4 0
  = Raised (ValueError ("DAG " +:+ "missing" +:+ " not found")).
Proof. apply (run_dag_unknown_raises digest_of_id). reflexivity. Defined.

(** ** Schedules *)

(** C7 (counterexample).  A schedule of kind "weekly" is accepted: the
    call returns, the schedule is registered and written to the snapshot,
    and its [next_run] is unset. *)
Lemma add_schedule_accepts_unknown_kind :
  ∃ s', add_schedule 0 new_Scheduler (new_Schedule "d" "weekly" None)
        = Returned (s', 0%nat)
        ∧ schedules s' !! "d" = Some (new_Schedule "d" "weekly" None)
        ∧ next_run <$> schedules s' !! "d" = Some None
        ∧ snapshot s' = Some {["d" := to_dict (new_Schedule "d" "weekly" None)]}.
Proof.
  eexists. split; [reflexivity|]. simpl.
  rewrite lookup_insert_eq. repeat split; done.
Qed.

Lemma calculate_next_run_other_kind clock sched :
  schedule_type sched ≠ "daily" → schedule_type sched ≠ "hourly" →
  schedule_type sched ≠ "interval" →
  calculate_next_run clock sched = (sched, clock).
Proof.
  intros H1 H2 H3. unfold calculate_next_run.
  by rewrite !decide_False by done.
Qed.

(** C7 (amended).  A schedule whose kind is outside daily, hourly,
    interval and custom is not rejected: [add_schedule] returns normally,
    registers the schedule as it was given, with [next_run] left as it
    was (unset for a new schedule), and writes it to the snapshot. *)
Theorem add_schedule_unknown_kind_not_rejected (clock : nat) (s : Scheduler)
    (sched : Schedule) :
  schedule_type sched ∉ ["daily"; "hourly"; "interval"; "custom"] →
  ∃ s', add_schedule clock s sched = Returned (s', clock)
        ∧ schedules s' !! sched_dag_id sched = Some sched
        ∧ snapshot s' = Some (to_dict <$> schedules s')
        ∧ (∀ did, did ≠ sched_dag_id sched →
                  schedules s' !! did = schedules s !! did).
Proof.
  intros Hk. unfold add_schedule.
  rewrite calculate_next_run_other_kind by set_solver.
  eexists. split; [reflexivity|]. simpl. split; [apply lookup_insert_eq|].
  split; [done|]. intros did Hd. by rewrite lookup_insert_ne.
Qed.

Lemma add_schedule_unknown_kind_not_rejected_witness :
  ∃ s', add_schedule 5 new_Scheduler (new_Schedule "d" "weekly" None)
        = Returned (s', 5%nat)
        ∧ schedules s' !! sched_dag_id (new_Schedule "d" "weekly" None)
          = Some (new_Schedule "d" "weekly" None)
        ∧ snapshot s' = Some (to_dict <$> schedules s')
        ∧ (∀ did, did ≠ sched_dag_id (new_Schedule "d" "weekly" None) →
                  schedules s' !! did = schedules new_Scheduler !! did).
Proof.
  apply (add_schedule_unknown_kind_not_rejected 5 new_Scheduler
           (new_Schedule "d" "weekly" None)).
  apply (bool_decide_unpack _). vm_compute. exact I.
Defined.

(** C10.  When the dag_id is not in the schedule registry,
    [remove_schedule], [enable_schedule], [disable_schedule] and
    [mark_run] return normally and leave the scheduler, registry and
    snapshot, as it was; [mark_run] does not even read the clock. *)
Theorem scheduler_unknown_dag_noop (s : Scheduler) (did : string) :
  schedules s !! did = None →
  remove_schedule s did = Returned s
  ∧ enable_schedule s did = Returned s
  ∧ disable_schedule s did = Returned s
  ∧ ∀ clock, mark_run clock s did = Returned (s, clock).
Proof.
  intros H. unfold remove_schedule, enable_schedule, disable_schedule, mark_run.
  rewrite H. rewrite decide_False by (by intros [? ?]). done.
Qed.

(** A scheduler with one daily schedule, for "my_dag". *)
Lemma scheduler_unknown_dag_noop_witness :
  let s := {| schedules := {["my_dag" := new_Schedule "my_dag" "daily" None]};
              snapshot := Some {["my_dag" := to_dict (new_Schedule "my_dag" "daily" None)]} |} in
  remove_schedule s "other" = Returned s
  ∧ enable_schedule s "other" = Returned s
  ∧ disable_schedule s "other" = Returned s
  ∧ ∀ clock, mark_run clock s "other" = Returned (s, clock).
Proof.
  simpl. apply scheduler_unknown_dag_noop. simpl.
  apply lookup_singleton_ne. done.
Defined.

(** ** Listeners *)

(** No listener list holds a DAG id twice. *)
Definition listeners_nodup (tm : TriggerManager) : Prop :=
  ∀ tid l, listeners tm !! tid = Some l → NoDup l.

Lemma add_listener_lookup tm tid did :
  let old := default [] (listeners tm !! tid) in
  ∃ l, listeners (add_listener tm tid did) !! tid = Some l ∧ did ∈ l
       ∧ (l = old ∨ (¬ did ∈ old) ∧ l = old ++ [did]).
Proof.
  unfold add_listener.
  destruct (listeners tm !! tid) as [l0|] eqn:E; simpl.
  - rewrite E; simpl. destruct (decide (did ∈ l0)) as [Hin|Hin].
    + exists l0. eauto.
    + exists (l0 ++ [did]). rewrite lookup_insert_eq.
      split; [done|]. split; [set_solver|]. right. done.
  - rewrite lookup_insert_eq; simpl.
    exists [did]. rewrite lookup_insert_eq.
    split; [done|]. split; [set_solver|]. right. split; [|done].
    by intros ?%elem_of_nil.
Qed.

Lemma add_listener_lookup_ne tm tid did tid' :
  tid ≠ tid' →
  listeners (add_listener tm tid did) !! tid' = listeners tm !! tid'.
Proof.
  intros Hne. unfold add_listener.
  destruct (listeners tm !! tid) as [l0|] eqn:E; simpl.
  - rewrite E; simpl. destruct (decide (did ∈ l0)); [done|].
    by rewrite lookup_insert_ne.
  - rewrite lookup_insert_eq; simpl.
    by rewrite !lookup_insert_ne.
Qed.

(** Once the DAG id is in the list, [add_listener] changes nothing. *)
Lemma add_listener_present tm tid did l :
  listeners tm !! tid = Some l → did ∈ l → add_listener tm tid did = tm.
Proof.
  intros E Hin. unfold add_listener. rewrite E; simpl. rewrite E; simpl.
  rewrite decide_True by done. by destruct tm.
Qed.

Lemma add_listener_idempotent tm tid did :
  add_listener (add_listener tm tid did) tid did = add_listener tm tid did.
Proof.
  destruct (add_listener_lookup tm tid did) as (l & E & Hin & _).
  by apply (add_listener_present _ _ _ l).
Qed.

Lemma add_listener_nodup tm tid did :
  listeners_nodup tm → listeners_nodup (add_listener tm tid did).
Proof.
  intros Hnd tid' l Hl. destruct (decide (tid = tid')) as [<-|Hne].
  - destruct (add_listener_lookup tm tid did) as (l' & E & _ & Hcase).
    rewrite E in Hl. injection Hl as <-.
    assert (NoDup (default [] (listeners tm !! tid))) as Hold.
    { destruct (listeners tm !! tid) as [l0|] eqn:E0; simpl.
      - by apply (Hnd tid). - constructor. }
    destruct Hcase as [->|[Hnin ->]]; [done|].
    apply NoDup_app. split; [done|]. split.
    + intros x Hx ?%list_elem_of_singleton. by subst.
    + apply NoDup_singleton.
  - rewrite add_listener_lookup_ne in Hl by done. by apply (Hnd tid').
Qed.

Lemma tm_step_nodup tm c : listeners_nodup tm → listeners_nodup (tm_step tm c).
Proof.
  intros Hnd. destruct c as [t|tid did|tid did|clock tid pl]; simpl.
  - done.
  - by apply add_listener_nodup.
  - unfold remove_listener.
    destruct (listeners tm !! tid) as [l0|] eqn:E; [|done].
    intros tid' l. simpl. destruct (decide (tid = tid')) as [<-|Hne].
    + rewrite lookup_insert_eq. intros [= <-]. apply NoDup_filter. by apply (Hnd tid).
    + rewrite lookup_insert_ne by done. apply Hnd.
  - unfold fire_trigger. by destruct (triggers tm !! tid).
Qed.

Lemma tm_after_nodup history : listeners_nodup (tm_after history).
Proof.
  unfold tm_after.
  assert (listeners_nodup new_TriggerManager) as H0.
  { intros tid l. simpl. by rewrite lookup_empty. }
  revert H0. generalize new_TriggerManager.
  induction history as [|c h IH]; intros tm H0; simpl; [done|].
  apply IH. by apply tm_step_nodup.
Qed.

Lemma filter_eq_absent (l : list string) (x : string) :
  x ∉ l → filter (fun y => y = x) l = [].
Proof.
  induction l as [|y l IH]; intros Hx; [done|].
  apply not_elem_of_cons in Hx as [Hne Hx].
  rewrite filter_cons, decide_False by done. by apply IH.
Qed.

Lemma nodup_count_one (l : list string) (x : string) :
  NoDup l → x ∈ l → length (filter (fun y => y = x) l) = 1%nat.
Proof.
  induction 1 as [|y l Hy Hnd IH]; intros Hin.
  - by apply elem_of_nil in Hin.
  - rewrite filter_cons. destruct (decide (y = x)) as [->|Hne].
    + simpl. by rewrite filter_eq_absent.
    + apply elem_of_cons in Hin as [->|Hin]; [done|]. by apply IH.
Qed.

(** C8.  After any history of calls on a trigger manager, calling
    [add_listener] twice with the same trigger id and DAG id leaves the
    manager that one call leaves, and the DAG id occurs exactly once in
    the listener list of that trigger. *)
Theorem add_listener_twice_one_membership (history : list tm_call)
    (tid did : string) :
  let tm := tm_after history in
  let tm2 := add_listener (add_listener tm tid did) tid did in
  tm2 = add_listener tm tid did
  ∧ ∃ l, listeners tm2 !! tid = Some l
         ∧ length (filter (fun d => d = did) l) = 1%nat.
Proof.
  intros tm tm2. subst tm2. rewrite add_listener_idempotent. split; [done|].
  destruct (add_listener_lookup tm tid did) as (l & E & Hin & _).
  exists l. split; [done|]. apply nodup_count_one; [|done].
  apply (add_listener_nodup tm tid did (tm_after_nodup history) tid l E).
Qed.

(** ** Topological sort *)

Lemma filter_ext_in {A} (P Q : A → Prop) `{∀ x, Decision (P x)}
    `{∀ x, Decision (Q x)} (l : list A) :
  (∀ x, x ∈ l → (P x ↔ Q x)) → filter P l = filter Q l.
Proof.
  induction l as [|a l IH]; intros Hext; [done|].
  rewrite !filter_cons, IH by (intros x Hx; apply Hext; by right).
  destruct (decide (P a)) as [Hp|Hp].
  - rewrite decide_True; [done|]. apply Hext; [by left|done].
  - rewrite decide_False; [done|]. intros Hq. apply Hp, Hext; [by left|done].
Qed.

(** A key of the mapping names one task. *)
Lemma task_ids_inj (ts : list Task) (t t' : Task) :
  NoDup (task_ids ts) → t ∈ ts → t' ∈ ts → task_id t = task_id t' → t = t'.
Proof.
  intros Hnd [i Hi]%list_elem_of_lookup [j Hj]%list_elem_of_lookup Heq.
  assert (i = j) as ->; [|congruence].
  eapply (NoDup_lookup (task_ids ts)); [done| |];
    unfold task_ids; rewrite list_lookup_fmap.
  - by rewrite Hi.
  - rewrite Hj; simpl. by rewrite Heq.
Qed.

Lemma task_ids_filter_nodup (ts : list Task) (P : Task → Prop)
    `{∀ t, Decision (P t)} :
  NoDup (task_ids ts) → NoDup (task_ids (filter P ts)).
Proof.
  intros Hnd. apply (sublist_NoDup _ (task_ids ts)); [done|].
  unfold task_ids. apply fmap_sublist, sublist_filter.
Qed.

Lemma zero_in_degree_acc (ts : list Task) (m : gmap string Z) (k : string) :
  foldl (fun m t => <[task_id t := 0]> m) m ts !! k
  = if decide (k ∈ task_ids ts) then Some 0 else m !! k.
Proof.
  revert m. induction ts as [|t ts IH]; intros m.
  - done.
  - simpl. rewrite IH. destruct (decide (k ∈ task_ids ts)) as [Hin|Hin].
    + rewrite decide_True; [done|]. by right.
    + destruct (decide (k = task_id t)) as [->|Hne].
      * rewrite lookup_insert_eq, decide_True; [done|]. by left.
      * rewrite lookup_insert_ne by done. rewrite decide_False; [done|].
        intros [?|?]%elem_of_cons; done.
Qed.

Lemma zero_in_degree_lookup (ts : list Task) (k : string) :
  zero_in_degree ts !! k = if decide (k ∈ task_ids ts) then Some 0 else None.
Proof. unfold zero_in_degree. by rewrite zero_in_degree_acc, lookup_empty. Qed.

Section Kahn.

(** The task mapping; its keys are distinct, as the keys of a dict are. *)
Variable ts : list Task.
Hypothesis ts_keys : NoDup (task_ids ts).

(** The dependencies of a task that are keys of the mapping, with their
    repetitions, and their number: the in-degree that the first loop
    computes. *)
Definition known_deps (t : Task) : list string :=
  filter (fun d => d ∈ task_ids ts) (depends_on t).

Definition counted (t : Task) : nat := length (known_deps t).

(** How many keys of [order] are dependencies of [t]: the number of times
    the entry of [t] has been decremented once [order] is processed. *)
Definition hits (order : list string) (t : Task) : nat :=
  length (filter (fun c => c ∈ depends_on t) order).

Lemma hits_snoc order c t :
  hits (order ++ [c]) t
  = (hits order t + if decide (c ∈ depends_on t) then 1 else 0)%nat.
Proof.
  unfold hits. rewrite filter_app, length_app, filter_cons, filter_nil.
  by destruct (decide (c ∈ depends_on t)).
Qed.

(** The keys of a duplicate-free [order] that [t] depends on are fewer
    than the counted dependencies as long as one known dependency is
    outside [order]. *)
Lemma hits_lt order c t :
  NoDup order → (∀ x, x ∈ order → x ∈ task_ids ts) →
  c ∈ depends_on t → c ∈ task_ids ts → c ∉ order →
  (hits order t < counted t)%nat.
Proof.
  intros Hnd Hsub Hc Hk Hout. unfold hits, counted.
  assert (length (c :: filter (fun c => c ∈ depends_on t) order)
          ≤ length (known_deps t))%nat as Hlen; [|simpl in Hlen; lia].
  apply submseteq_length, NoDup_submseteq.
  - apply NoDup_cons. split; [|by apply NoDup_filter].
    rewrite list_elem_of_filter. tauto.
  - intros x [->|Hx]%elem_of_cons; unfold known_deps;
      rewrite list_elem_of_filter; [done|].
    apply list_elem_of_filter in Hx as [? ?]. auto.
Qed.

Lemma hits_le order t :
  NoDup order → (∀ x, x ∈ order → x ∈ task_ids ts) →
  (hits order t ≤ counted t)%nat.
Proof.
  intros Hnd Hsub. unfold hits, counted.
  apply submseteq_length, NoDup_submseteq; [by apply NoDup_filter|].
  intros x [? ?]%list_elem_of_filter. unfold known_deps.
  rewrite list_elem_of_filter. auto.
Qed.

(** When the entry of [t] has come down to zero, every known dependency
    of [t] is in [order]. *)
Lemma hits_full order t d :
  NoDup order → (∀ x, x ∈ order → x ∈ task_ids ts) →
  hits order t = counted t → d ∈ known_deps t → d ∈ order.
Proof.
  intros Hnd Hsub Heq [Hk Hd]%list_elem_of_filter.
  destruct (decide (d ∈ order)) as [|Hout]; [done|].
  pose proof (hits_lt order d t Hnd Hsub Hd Hk Hout). lia.
Qed.

(** Conversely, for a task that lists no dependency twice. *)
Lemma hits_all order t :
  NoDup order → (∀ x, x ∈ order → x ∈ task_ids ts) →
  NoDup (depends_on t) → (∀ d, d ∈ known_deps t → d ∈ order) →
  hits order t = counted t.
Proof.
  intros Hnd Hsub Hdeps Hall. unfold hits, counted.
  apply Permutation_length, NoDup_Permutation.
  - by apply NoDup_filter.
  - unfold known_deps. by apply NoDup_filter.
  - intros x. unfold known_deps. rewrite !list_elem_of_filter. split.
    + intros [? ?]. auto.
    + intros [Hk Hd]. split; [done|]. apply Hall. unfold known_deps.
      by rewrite list_elem_of_filter.
Qed.

(** *** The counting loop *)

Lemma for_each_cons {S A} (body : S → A → outcome S) a r s :
  for_each body (a :: r) s = body s a ≫= for_each body r.
Proof. done. Qed.

Lemma bind_Returned {A B} (a : A) (k : A → outcome B) : Returned a ≫= k = k a.
Proof. done. Qed.

Lemma count_dep_known tid (m : gmap string Z) dep v :
  is_Some (m !! dep) → m !! tid = Some v →
  count_dep tid m dep = Returned (<[tid := v + 1]> m).
Proof.
  intros Hs Hv. unfold count_dep, dict_get. rewrite decide_True by done.
  by rewrite Hv.
Qed.

Lemma count_dep_unknown tid (m : gmap string Z) dep :
  ¬ is_Some (m !! dep) → count_dep tid m dep = Returned m.
Proof. intros Hs. unfold count_dep. by rewrite decide_False. Qed.

Lemma relax_hit current (m : gmap string Z) q t v :
  current ∈ depends_on t → m !! task_id t = Some v →
  relax current (m, q) t
  = Returned (<[task_id t := v - 1]> m,
              if decide (v - 1 = 0) then q ++ [task_id t] else q).
Proof.
  intros Hc Hv. unfold relax, dict_get. rewrite decide_True by done.
  simpl. rewrite Hv. simpl. by destruct (decide (v - 1 = 0)).
Qed.

Lemma relax_miss current st t :
  current ∉ depends_on t → relax current st t = Returned st.
Proof. intros Hc. unfold relax. by rewrite decide_False. Qed.

(** The keys of [in_degree] are the keys of the task mapping. *)
Definition keys_are_task_ids (m : gmap string Z) : Prop :=
  ∀ d, is_Some (m !! d) ↔ d ∈ task_ids ts.

Lemma keys_insert m k v :
  keys_are_task_ids m → is_Some (m !! k) → keys_are_task_ids (<[k := v]> m).
Proof.
  intros Hk Hs d. destruct (decide (k = d)) as [<-|Hne].
  - rewrite lookup_insert_eq. split; [intros _; by apply Hk|by eexists].
  - rewrite lookup_insert_ne by done. apply Hk.
Qed.

Lemma count_deps_spec (tid : string) (deps : list string) m v :
  keys_are_task_ids m → m !! tid = Some v →
  for_each (count_dep tid) deps m
  = Returned (<[tid := v + Z.of_nat (length (filter (fun d => d ∈ task_ids ts) deps))]> m).
Proof.
  revert m v. induction deps as [|dep deps IH]; intros m v Hk Hv.
  - simpl. f_equal. rewrite Z.add_0_r. symmetry. by apply insert_id.
  - rewrite for_each_cons, filter_cons.
    destruct (decide (is_Some (m !! dep))) as [Hs|Hs].
    + rewrite decide_True by (by apply Hk).
      rewrite (count_dep_known _ _ _ v), bind_Returned by done.
      rewrite (IH _ (v + 1)).
      * rewrite insert_insert_eq. do 2 f_equal. simpl length. lia.
      * apply keys_insert; [done|]. by eexists.
      * apply lookup_insert_eq.
    + rewrite decide_False by (intros Hd; by apply Hs, Hk).
      rewrite count_dep_unknown, bind_Returned by done. by apply IH.
Qed.

Lemma count_task_spec (t : Task) m v :
  keys_are_task_ids m → m !! task_id t = Some v →
  count_task m t = Returned (<[task_id t := v + Z.of_nat (counted t)]> m).
Proof. intros Hk Hv. unfold count_task. by apply count_deps_spec. Qed.

Lemma count_all_spec (l : list Task) m :
  NoDup (task_ids l) → (∀ t, t ∈ l → t ∈ ts) → keys_are_task_ids m →
  ∃ m', for_each count_task l m = Returned m'
        ∧ keys_are_task_ids m'
        ∧ (∀ t, t ∈ l → m' !! task_id t
                        = (fun v => v + Z.of_nat (counted t)) <$> m !! task_id t)
        ∧ (∀ k, k ∉ task_ids l → m' !! k = m !! k).
Proof.
  revert m. induction l as [|t l IH]; intros m Hnd Hin Hk.
  - exists m. split; [done|]. split; [done|]. split; [|done].
    by intros t ?%elem_of_nil.
  - apply NoDup_cons in Hnd as [Hfresh Hnd].
    assert (is_Some (m !! task_id t)) as [v Hv].
    { apply Hk. apply list_elem_of_fmap_2. apply Hin. by left. }
    rewrite for_each_cons, (count_task_spec _ _ v), bind_Returned by done.
    destruct (IH (<[task_id t := v + Z.of_nat (counted t)]> m)) as (m' & E & Hk' & Hl & Ho).
    { done. } { intros t' Ht'. apply Hin. by right. }
    { apply keys_insert; [done|]. by eexists. }
    exists m'. split; [done|]. split; [done|]. split.
    + intros t' [->|Ht']%elem_of_cons.
      * rewrite Ho by done. rewrite lookup_insert_eq, Hv. done.
      * rewrite Hl by done. rewrite lookup_insert_ne; [done|].
        intros Heq. apply Hfresh. rewrite Heq. by apply list_elem_of_fmap_2.
    + intros k [Hne Hk0]%not_elem_of_cons. rewrite Ho by done.
      by rewrite lookup_insert_ne.
Qed.

(** After the first loop every task has its counted in-degree. *)
Lemma count_all_tasks :
  ∃ m, for_each count_task ts (zero_in_degree ts) = Returned m
       ∧ ∀ t, t ∈ ts → m !! task_id t = Some (Z.of_nat (counted t)).
Proof.
  destruct (count_all_spec ts (zero_in_degree ts)) as (m & E & _ & Hl & _);
    [done|done| |].
  - intros d. rewrite zero_in_degree_lookup.
    destruct (decide (d ∈ task_ids ts)); [by split; [|eexists]|].
    split; [by intros [? ?]|done].
  - exists m. split; [done|]. intros t Ht. rewrite Hl by done.
    rewrite zero_in_degree_lookup, decide_True by (by apply list_elem_of_fmap_2).
    done.
Qed.

(** *** The decrementing loop *)

(** The tasks that processing [current] enqueues: those that list it and
    whose entry is one. *)
Definition released (current : string) (m : gmap string Z) (l : list Task)
    : list string :=
  task_ids (filter (fun t => current ∈ depends_on t ∧ m !! task_id t = Some 1) l).

Lemma relax_all_spec (current : string) (l : list Task) m q :
  NoDup (task_ids l) → (∀ t, t ∈ l → is_Some (m !! task_id t)) →
  ∃ m', for_each (relax current) l (m, q)
        = Returned (m', q ++ released current m l)
        ∧ (∀ t, t ∈ l → m' !! task_id t
                        = if decide (current ∈ depends_on t)
                          then (fun v => v - 1) <$> m !! task_id t
                          else m !! task_id t)
        ∧ (∀ k, k ∉ task_ids l → m' !! k = m !! k).
Proof.
  revert m q. induction l as [|t l IH]; intros m q Hnd Hs.
  - exists m. unfold released. simpl. rewrite app_nil_r.
    split; [done|]. split; [|done]. by intros t ?%elem_of_nil.
  - apply NoDup_cons in Hnd as [Hfresh Hnd].
    destruct (Hs t) as [v Hv]; [by left|].
    assert (∀ m1 : gmap string Z,
              (∀ k, k ≠ task_id t → m1 !! k = m !! k) →
              released current m1 l = released current m l) as Hrel.
    { intros m1 Hm1. unfold released. f_equal. apply filter_ext_in.
      intros t' Ht'. rewrite Hm1; [done|]. intros Heq. apply Hfresh.
      rewrite <- Heq. by apply list_elem_of_fmap_2. }
    rewrite for_each_cons. unfold released at 1. rewrite filter_cons.
    destruct (decide (current ∈ depends_on t)) as [Hc|Hc].
    + rewrite (relax_hit _ _ _ _ v), bind_Returned by done.
      set (m1 := <[task_id t := v - 1]> m).
      assert (∀ k, k ≠ task_id t → m1 !! k = m !! k) as Hm1.
      { intros k Hk. unfold m1. by rewrite lookup_insert_ne. }
      assert (∀ t', t' ∈ l → is_Some (m1 !! task_id t')) as Hs1.
      { intros t' Ht'. rewrite Hm1; [apply Hs; by right|].
        intros Heq. apply Hfresh. rewrite <- Heq. by apply list_elem_of_fmap_2. }
      destruct (IH m1 (if decide (v - 1 = 0) then q ++ [task_id t] else q)
                  Hnd Hs1) as (m' & E & Hl & Ho).
      exists m'. rewrite E, (Hrel m1 Hm1). split; [|split].
      * f_equal. f_equal. destruct (decide (v - 1 = 0)) as [Hz|Hz].
        -- rewrite decide_True by (split; [done|]; rewrite Hv; f_equal; lia).
           simpl. by rewrite <- app_assoc.
        -- rewrite decide_False; [done|].
           intros [_ Hone]. rewrite Hv in Hone. injection Hone as ->. lia.
      * intros t' [->|Ht']%elem_of_cons.
        -- rewrite Ho by done. unfold m1. rewrite lookup_insert_eq.
           rewrite decide_True by done. by rewrite Hv.
        -- rewrite Hl by done. rewrite Hm1; [done|].
           intros Heq. apply Hfresh. rewrite <- Heq. by apply list_elem_of_fmap_2.
      * intros k [Hne Hk]%not_elem_of_cons. rewrite Ho by done. by apply Hm1.
    + rewrite relax_miss, bind_Returned by done.
      destruct (IH m q Hnd) as (m' & E & Hl & Ho).
      { intros t' Ht'. apply Hs. by right. }
      exists m'. rewrite E. rewrite decide_False by tauto.
      split; [done|]. split.
      * intros t' [->|Ht']%elem_of_cons.
        -- rewrite Ho by done. by rewrite decide_False.
        -- by apply Hl.
      * intros k [Hne Hk]%not_elem_of_cons. by apply Ho.
Qed.

(** *** The invariant of the [while] loop *)

Record kahn_inv (m : gmap string Z) (queue order : list string) : Prop := {
  (** no key is enqueued twice *)
  inv_nodup : NoDup (order ++ queue);
  inv_keys : ∀ x, x ∈ order ++ queue → x ∈ task_ids ts;
  (** the entry of a task is its counted in-degree less the processed
      keys that it lists *)
  inv_degree : ∀ t, t ∈ ts →
    m !! task_id t = Some (Z.of_nat (counted t) - Z.of_nat (hits order t));
  (** the enqueued tasks are those whose entry is zero *)
  inv_zero : ∀ t, t ∈ ts →
    (task_id t ∈ order ++ queue ↔ hits order t = counted t);
  (** a task of the order comes after its known dependencies *)
  inv_sorted : ∀ i t, t ∈ ts → order !! i = Some (task_id t) →
    ∀ d, d ∈ known_deps t → d ∈ take i order
}.

Lemma hits_nil t : hits [] t = 0%nat.
Proof. done. Qed.

Lemma zero_degree_ids_elem m x :
  x ∈ zero_degree_ids ts m ↔ ∃ t, t ∈ ts ∧ x = task_id t ∧ m !! task_id t = Some 0.
Proof.
  unfold zero_degree_ids, task_ids. rewrite list_elem_of_fmap. split.
  - intros (t & -> & [? ?]%list_elem_of_filter). eauto.
  - intros (t & ? & -> & ?). exists t. split; [done|].
    by apply list_elem_of_filter.
Qed.

Lemma kahn_inv_init m :
  (∀ t, t ∈ ts → m !! task_id t = Some (Z.of_nat (counted t))) →
  kahn_inv m (zero_degree_ids ts m) [].
Proof.
  intros Hm. split; simpl.
  - unfold zero_degree_ids. by apply task_ids_filter_nodup.
  - intros x (t & Ht & -> & _)%zero_degree_ids_elem.
    by apply list_elem_of_fmap_2.
  - intros t Ht. rewrite Hm by done. f_equal. rewrite hits_nil. lia.
  - intros t Ht. rewrite hits_nil, zero_degree_ids_elem. split.
    + intros (t' & Ht' & Heq & Hz).
      rewrite (task_ids_inj ts t t' ts_keys Ht Ht' Heq).
      rewrite Hm in Hz by done. injection Hz. lia.
    + intros Hz. exists t. split; [done|]. split; [done|].
      rewrite Hm by done. f_equal. lia.
  - intros i t _ Hi. by rewrite lookup_nil in Hi.
Qed.

Lemma released_elem c m x :
  x ∈ released c m ts
  ↔ ∃ t, t ∈ ts ∧ x = task_id t ∧ c ∈ depends_on t ∧ m !! task_id t = Some 1.
Proof.
  unfold released, task_ids. rewrite list_elem_of_fmap. split.
  - intros (t & -> & [[? ?] ?]%list_elem_of_filter). eauto 6.
  - intros (t & ? & -> & ? & ?). exists t. split; [done|].
    by apply list_elem_of_filter.
Qed.

(** One iteration of the [while] loop keeps the invariant. *)
Lemma kahn_step m c q order :
  kahn_inv m (c :: q) order →
  ∃ m', for_each (relax c) ts (m, q) = Returned (m', q ++ released c m ts)
        ∧ kahn_inv m' (q ++ released c m ts) (order ++ [c]).
Proof.
  intros [Hnd Hkeys Hdeg Hzero Hsorted].
  destruct (relax_all_spec c ts m q ts_keys) as (m' & E & Hl & _).
  { intros t Ht. rewrite Hdeg by done. by eexists. }
  exists m'. split; [done|].
  assert ((order ++ [c]) ++ q ++ released c m ts
          = (order ++ c :: q) ++ released c m ts) as Happ.
  { by rewrite <- !app_assoc. }
  assert (NoDup order) as Hndo by (by apply NoDup_app in Hnd as [? _]).
  assert (∀ x, x ∈ order → x ∈ task_ids ts) as Hsubo.
  { intros x Hx. apply Hkeys, elem_of_app. by left. }
  assert (c ∈ task_ids ts) as Hck.
  { apply Hkeys, elem_of_app. right. by left. }
  assert (c ∉ order) as Hco.
  { apply NoDup_app in Hnd as (_ & Hdisj & _). intros Hc.
    apply (Hdisj c Hc). by left. }
  assert (∀ t, t ∈ ts → c ∈ depends_on t → (hits order t < counted t)%nat) as Hlt.
  { intros t Ht Hc. by apply (hits_lt order c t). }
  split.
  - rewrite Happ. apply NoDup_app. split; [done|]. split.
    + intros x Hx (t & Ht & -> & Hc & Hone)%released_elem.
      apply Hzero in Hx; [|done]. rewrite Hdeg in Hone by done.
      injection Hone. lia.
    + unfold released. by apply task_ids_filter_nodup.
  - rewrite Happ. intros x [Hx|Hx]%elem_of_app; [by apply Hkeys|].
    apply released_elem in Hx as (t & Ht & -> & _).
    by apply list_elem_of_fmap_2.
  - intros t Ht. rewrite Hl, hits_snoc by done. rewrite Hdeg by done.
    destruct (decide (c ∈ depends_on t)); simpl; f_equal; lia.
  - intros t Ht. rewrite Happ, hits_snoc, elem_of_app, (Hzero t Ht).
    rewrite released_elem. split.
    + intros [Heq|(t' & Ht' & Hid & Hc & Hone)].
      * destruct (decide (c ∈ depends_on t)) as [Hc|Hc]; [|lia].
        specialize (Hlt t Ht Hc). lia.
      * rewrite <- (task_ids_inj ts t t' ts_keys Ht Ht' Hid) in Hc, Hone.
        rewrite decide_True by done. rewrite Hdeg in Hone by done.
        injection Hone. lia.
    + intros Heq. destruct (decide (c ∈ depends_on t)) as [Hc|Hc].
      * right. exists t. split; [done|]. split; [done|]. split; [done|].
        rewrite Hdeg by done. f_equal. lia.
      * left. lia.
  - intros i t Ht Hi d Hd.
    apply lookup_app_Some in Hi as [Hi|[Hlen Hi]].
    + rewrite take_app_le.
      * by apply (Hsorted i t).
      * apply lookup_lt_Some in Hi. lia.
    + apply list_lookup_singleton_Some in Hi as [Hi0 Hid].
      assert (i = length order) as -> by lia.
      rewrite take_app_length.
      apply (hits_full order t d); [done..| |done].
      apply Hzero; [done|]. rewrite <- Hid. apply elem_of_app. right. by left.
Qed.

(** The [while] loop ends within as many iterations as there are tasks
    left to place, with the invariant and an empty queue. *)
Lemma kahn_loop_total fuel m queue order :
  kahn_inv m queue order → (length ts ≤ length order + fuel)%nat →
  ∃ order' m', kahn_loop fuel ts m queue order = Returned order'
               ∧ kahn_inv m' [] order'.
Proof.
  revert m queue order. induction fuel as [|fuel IH]; intros m queue order Hinv Hfuel.
  - destruct queue as [|c q].
    + exists order, m. done.
    + exfalso. destruct Hinv as [Hnd Hkeys _ _ _].
      assert (length (order ++ c :: q) ≤ length (task_ids ts))%nat as Hlen.
      { apply submseteq_length, NoDup_submseteq; done. }
      rewrite length_app in Hlen. unfold task_ids in Hlen.
      rewrite length_fmap in Hlen. simpl in Hlen. lia.
  - destruct queue as [|c q].
    + exists order, m. done.
    + destruct (kahn_step m c q order Hinv) as (m' & E & Hinv').
      simpl. rewrite E, bind_Returned. simpl. apply (IH m'); [done|].
      rewrite length_app. simpl. lia.
Qed.

(** More fuel does not change what the loop returns. *)
Lemma kahn_loop_more_fuel fuel extra m queue order order' :
  kahn_loop fuel ts m queue order = Returned order' →
  kahn_loop (fuel + extra) ts m queue order = Returned order'.
Proof.
  revert m queue order. induction fuel as [|fuel IH]; intros m queue order.
  - destruct queue; [|done]. simpl. intros [= <-]. by destruct extra.
  - destruct queue as [|c q]; [done|]. simpl.
    destruct (for_each (relax c) ts (m, q)) as [st| |]; [|done..].
    rewrite !bind_Returned. apply IH.
Qed.

(** The two loops together: with at least as many iterations as there
    are tasks the sort returns, always the same order, and the invariant
    holds of it with an empty queue. *)
Lemma kahn_returns :
  ∃ order m',
    (∀ extra,
       (m ← for_each count_task ts (zero_in_degree ts);
        kahn_loop (length ts + extra) ts m (zero_degree_ids ts m) [])
       = Returned order)
    ∧ kahn_inv m' [] order.
Proof.
  destruct count_all_tasks as (m & E & Hm).
  destruct (kahn_loop_total (length ts) m (zero_degree_ids ts m) [])
    as (order & m' & Eo & Hinv).
  { by apply kahn_inv_init. } { simpl. lia. }
  exists order, m'. split; [|done]. intros extra.
  rewrite E, bind_Returned. by apply kahn_loop_more_fuel.
Qed.

(** What the invariant says of the returned order. *)
Lemma kahn_inv_final m order :
  kahn_inv m [] order →
  NoDup order
  ∧ (∀ x, x ∈ order → x ∈ task_ids ts)
  ∧ (∀ j t d, t ∈ ts → order !! j = Some (task_id t) →
                d ∈ depends_on t → d ∈ task_ids ts →
                ∃ i, (i < j)%nat ∧ order !! i = Some d)
  ∧ (∀ t, t ∈ ts → (task_id t ∈ order ↔ hits order t = counted t)).
Proof.
  intros [Hnd Hkeys _ Hzero Hsorted]. rewrite app_nil_r in Hnd.
  split; [done|]. split; [|split].
  - intros x Hx. apply Hkeys. by rewrite app_nil_r.
  - intros j t d Ht Hj Hd Hk.
    assert (d ∈ take j order) as Hin.
    { apply (Hsorted j t Ht Hj). unfold known_deps.
      by apply list_elem_of_filter. }
    apply elem_of_take in Hin as (i & Hi & Hlt). eauto.
  - intros t Ht. rewrite <- (Hzero t Ht). by rewrite app_nil_r.
Qed.

End Kahn.

Lemma tasks_set_ids ts t :
  task_ids (tasks_set ts t)
  = if decide (task_id t ∈ task_ids ts) then task_ids ts
    else task_ids ts ++ [task_id t].
Proof.
  induction ts as [|x ts IH]; [done|]. simpl.
  destruct (decide (task_id x = task_id t)) as [Heq|Hne].
  - rewrite decide_True by (rewrite Heq; by left). simpl. by rewrite Heq.
  - simpl. fold (task_ids (tasks_set ts t)). rewrite IH.
    fold (task_ids ts).
    destruct (decide (task_id t ∈ task_ids ts)) as [Hin|Hin].
    + rewrite decide_True by (by right). done.
    + rewrite decide_False; [done|].
      intros [?|?]%elem_of_cons; [congruence|done].
Qed.

(** A new DAG is well formed and [add_task] keeps it so. *)
Lemma new_DAG_wf did : wf_DAG (new_DAG did).
Proof. constructor. Qed.

Lemma add_task_wf d t : wf_DAG d → wf_DAG (add_task d t).
Proof.
  unfold wf_DAG. simpl. intros Hnd. rewrite tasks_set_ids.
  destruct (decide (task_id t ∈ task_ids (tasks d))) as [Hin|Hin]; [done|].
  apply NoDup_app. split; [done|]. split; [|apply NoDup_singleton].
  intros x Hx ->%list_elem_of_singleton. done.
Qed.

(** [topological_sort] returns on every DAG, raising nothing, and more
    fuel than the number of tasks changes nothing.  The order holds no
    key twice, holds keys of the mapping only, and every task in it comes
    after each of its dependencies that is a key of the mapping.  A task
    that lists no dependency twice is in the order once its known
    dependencies are. *)
Lemma topological_sort_returns_sorted (d : DAG) :
  wf_DAG d →
  ∃ order,
    topological_sort d = Returned (sorted_as d order)
    ∧ (∀ extra, topological_sort_fuel (length (tasks d) + extra) d
                = Returned (sorted_as d order))
    ∧ NoDup order
    ∧ (∀ x, x ∈ order → x ∈ task_ids (tasks d))
    ∧ (∀ t dep, t ∈ tasks d → task_id t ∈ order →
                dep ∈ depends_on t → dep ∈ task_ids (tasks d) →
                before order dep (task_id t))
    ∧ (∀ t, t ∈ tasks d → NoDup (depends_on t) →
            (∀ dep, dep ∈ depends_on t → dep ∈ task_ids (tasks d) →
                    dep ∈ order) →
            task_id t ∈ order).
Proof.
  intros Hwf. destruct (kahn_returns (tasks d) Hwf) as (order & m' & E & Hinv).
  apply kahn_inv_final in Hinv as (Hnd & Hsub & Hsorted & Hplaced).
  assert (∀ extra, topological_sort_fuel (length (tasks d) + extra) d
                   = Returned (sorted_as d order)) as Hfuel.
  { intros extra. unfold topological_sort_fuel. specialize (E extra).
    destruct (for_each count_task (tasks d) (zero_in_degree (tasks d)))
      as [m| |]; [|done..].
    simpl in E |- *. by rewrite E. }
  exists order. split.
  { unfold topological_sort. rewrite <- (Nat.add_0_r (length (tasks d))).
    apply Hfuel. }
  split; [done|]. split; [done|]. split; [done|]. split.
  - intros t dep Ht [j Hj]%list_elem_of_lookup Hdep Hk.
    destruct (Hsorted j t dep Ht Hj Hdep Hk) as (i & Hlt & Hi).
    exists i, j. done.
  - intros t Ht Hdeps Hall. apply Hplaced; [done|].
    apply hits_all; [done..|].
    intros dep [? ?]%list_elem_of_filter. by apply Hall.
Qed.

Lemma before_trans order a b c :
  NoDup order → before order a b → before order b c → before order a c.
Proof.
  intros Hnd (i & j & Hij & Hi & Hj) (j' & k & Hjk & Hj' & Hk).
  assert (j = j') as <- by (by eapply NoDup_lookup).
  exists i, k. split; [lia|done].
Qed.

Lemma before_irrefl order a : NoDup order → ¬ before order a a.
Proof.
  intros Hnd (i & j & Hij & Hi & Hj).
  assert (i = j) by (by eapply NoDup_lookup). lia.
Qed.

Lemma before_elem_l order a b : before order a b → a ∈ order.
Proof. intros (i & j & _ & Hi & _). by eapply list_elem_of_lookup_2. Qed.

(** In an order that puts each task after its known dependencies, a task
    that is in the order comes after everything it depends on through
    one or more edges. *)
Lemma tc_dep_edge_before d order a b :
  NoDup order →
  (∀ t dep, t ∈ tasks d → task_id t ∈ order →
            dep ∈ depends_on t → dep ∈ task_ids (tasks d) →
            before order dep (task_id t)) →
  tc (dep_edge d) a b → b ∈ order → before order a b.
Proof.
  intros Hnd Hsorted. induction 1 as [a b Hab|a y b Hay Hyb IH]; intros Hb.
  - destruct Hab as (t & Ht & <- & Hdep & Hk). by apply Hsorted.
  - specialize (IH Hb). apply (before_trans order a y b); [done| |done].
    destruct Hay as (t & Ht & <- & Hdep & Hk). apply Hsorted; [done| |done..].
    by apply (before_elem_l order _ b).
Qed.

Lemma tc_dep_edge_source d a b : tc (dep_edge d) a b → a ∈ task_ids (tasks d).
Proof. by intros [?? (t & _ & _ & _ & Hk)|??? (t & _ & _ & _ & Hk) _]. Qed.

(** C6.  When the dependency graph of a DAG has a cycle,
    [topological_sort] still returns (with as many loop iterations as
    there are tasks, or more), raising nothing, and the order it returns
    is strictly shorter than the number of tasks. *)
Theorem topological_sort_cycle_shorter (d : DAG) :
  wf_DAG d → has_cycle d →
  ∃ order,
    topological_sort d = Returned (sorted_as d order)
    ∧ (∀ extra, topological_sort_fuel (length (tasks d) + extra) d
                = Returned (sorted_as d order))
    ∧ (length order < length (tasks d))%nat.
Proof.
  intros Hwf [x Hx].
  destruct (topological_sort_returns_sorted d Hwf) as (order & E & Hfuel & Hnd & Hsub & Hsorted & _).
  exists order. split; [done|]. split; [done|].
  assert (x ∉ order) as Hout.
  { intros Hin. apply (before_irrefl order x Hnd).
    by apply (tc_dep_edge_before d). }
  assert (length (x :: order) ≤ length (task_ids (tasks d)))%nat as Hlen.
  { apply submseteq_length, NoDup_submseteq.
    - by apply NoDup_cons.
    - intros y [->|Hy]%elem_of_cons; [|by apply Hsub].
      by apply (tc_dep_edge_source d x x). }
  unfold task_ids in Hlen. rewrite length_fmap in Hlen. simpl in Hlen. lia.
Qed.

Lemma cyclic_dag_wf : wf_DAG cyclic_dag.
Proof. apply (bool_decide_unpack _). by vm_compute. Qed.

Lemma cyclic_dag_has_cycle : has_cycle cyclic_dag.
Proof.
  exists "a". apply (tc_l _ "a" "b" "a"); [|apply tc_once].
  - exists (new_Task "b" always_ok [] ["a"]). split; [|split; [done|split]].
    + apply list_elem_of_further, list_elem_of_here.
    + apply list_elem_of_here.
    + apply list_elem_of_here.
  - exists (new_Task "a" always_ok [] ["b"]). split; [|split; [done|split]].
    + apply list_elem_of_here.
    + apply list_elem_of_here.
    + apply list_elem_of_further, list_elem_of_here.
Qed.

(** On the DAG in which [a] and [b] depend on each other and [c] on
    nothing, the order is [c] alone. *)
Lemma topological_sort_cycle_shorter_witness :
  ∃ order,
    topological_sort cyclic_dag = Returned (sorted_as cyclic_dag order)
    ∧ (∀ extra, topological_sort_fuel (length (tasks cyclic_dag) + extra) cyclic_dag
                = Returned (sorted_as cyclic_dag order))
    ∧ (length order < length (tasks cyclic_dag))%nat.
Proof.
  apply topological_sort_cycle_shorter.
  - exact cyclic_dag_wf.
  - exact cyclic_dag_has_cycle.
Defined.

Example topological_sort_cyclic_dag :
  topological_sort cyclic_dag = Returned (sorted_as cyclic_dag ["c"]).
Proof. by vm_compute. Qed.

Example topological_sort_sample_dag :
  topological_sort sample_dag
  = Returned (sorted_as sample_dag ["task_1"; "task_2"; "task_3"]).
Proof. by vm_compute. Qed.

(** A graph whose edges go up along a rank has no cycle. *)
Lemma ranked_no_cycle d (rank : string → nat) :
  (∀ a b, dep_edge d a b → (rank a < rank b)%nat) → ¬ has_cycle d.
Proof.
  intros Hrank [x Hx].
  assert (∀ a b, tc (dep_edge d) a b → (rank a < rank b)%nat) as Htc.
  { induction 1 as [a b Hab|a y b Hay _ IH].
    - by apply Hrank.
    - apply Hrank in Hay. lia. }
  specialize (Htc x x Hx). lia.
Qed.

Lemma twice_dag_acyclic : ¬ has_cycle twice_dag.
Proof.
  apply (ranked_no_cycle _ (fun x => if decide (x = "b") then 1 else 0)%nat).
  intros a b (t & Ht & <- & Hdep & _).
  apply elem_of_cons in Ht as [->|Ht].
  - by apply elem_of_nil in Hdep.
  - apply list_elem_of_singleton in Ht as ->. simpl in *.
    apply elem_of_cons in Hdep as [->|Hdep]; [vm_compute; lia|].
    apply list_elem_of_singleton in Hdep as ->. vm_compute. lia.
Qed.

(** C1 (the code breaks it).  In the DAG [twice_dag] the task [b] lists
    its dependency [a] twice.  The graph has no cycle, yet the order that
    [topological_sort] returns is [a] alone: [b] is counted an in-degree
    of two, is decremented once when [a] is processed, and is never
    placed. *)
Theorem topological_sort_drops_repeated_dependency :
  wf_DAG twice_dag
  ∧ ¬ has_cycle twice_dag
  ∧ "b" ∈ task_ids (tasks twice_dag)
  ∧ topological_sort twice_dag = Returned (sorted_as twice_dag ["a"]).
Proof.
  split; [|split; [|split]].
  - apply (bool_decide_unpack _). by vm_compute.
  - exact twice_dag_acyclic.
  - apply list_elem_of_further, list_elem_of_here.
  - by vm_compute.
Qed.

(** ** The run loop *)

Lemma execute_task_id clock t : task_id (execute clock t).1.2 = task_id t.
Proof. apply execute_with_task_id. Qed.

Lemma execute_try_count clock t :
  try_count (execute clock t).1.2 = S (try_count t).
Proof. apply execute_with_try_count. Qed.

Lemma execute_status clock t :
  match (execute clock t).1.1 with
  | None => status (execute clock t).1.2 = SUCCESS
  | Some _ => status (execute clock t).1.2 = FAILED
  end.
Proof. apply execute_with_status. Qed.

Lemma tasks_get_elem ts t :
  NoDup (task_ids ts) → t ∈ ts → tasks_get ts (task_id t) = Some t.
Proof.
  induction ts as [|x ts IH]; intros Hnd Ht; [by apply elem_of_nil in Ht|].
  apply NoDup_cons in Hnd as [Hfresh Hnd]. simpl.
  apply elem_of_cons in Ht as [->|Ht].
  - by rewrite decide_True.
  - rewrite decide_False; [by apply IH|].
    intros Heq. apply Hfresh. rewrite Heq. by apply list_elem_of_fmap_2.
Qed.

Lemma tasks_set_elem ts t' x :
  NoDup (task_ids ts) → task_id t' ∈ task_ids ts →
  (x ∈ tasks_set ts t' ↔ x = t' ∨ (x ∈ ts ∧ task_id x ≠ task_id t')).
Proof.
  induction ts as [|y ts IH]; intros Hnd Hin; [by apply elem_of_nil in Hin|].
  apply NoDup_cons in Hnd as [Hfresh Hnd]. simpl.
  destruct (decide (task_id y = task_id t')) as [Heq|Hne].
  - rewrite !elem_of_cons. split.
    + intros [->|Hx]; [by left|]. right. split; [by right|].
      intros Hid. apply Hfresh. rewrite Heq, <- Hid.
      by apply list_elem_of_fmap_2.
    + intros [->|[[->|Hx] Hid]]; [by left|done|by right].
  - apply elem_of_cons in Hin as [Hin|Hin]; [congruence|].
    rewrite !elem_of_cons, (IH Hnd Hin). split.
    + intros [->|[->|[Hx Hid]]]; [right; split; [by left|done]|by left|].
      right. split; [by right|done].
    + intros [->|[[->|Hx] Hid]]; [right; by left|by left|].
      right. right. done.
Qed.

(** The loop never rewrites the identity of the run. *)
Definition same_run (st st' : loop_state) : Prop :=
  run_id (ls_run st') = run_id (ls_run st)
  ∧ run_dag_id (ls_run st') = run_dag_id (ls_run st).

Lemma same_run_refl st : same_run st st.
Proof. done. Qed.

Lemma same_run_trans st1 st2 st3 :
  same_run st1 st2 → same_run st2 st3 → same_run st1 st3.
Proof. intros [? ?] [? ?]. split; congruence. Qed.

Section RunLoop.

(** The tasks of the DAG when the loop is entered. *)
Variable ts0 : list Task.
Hypothesis ts0_keys : NoDup (task_ids ts0).

(** How a task [t] of the loop state stands to the task [t0] it was when
    the loop was entered: either it has not been touched and its key is
    in neither list, or it was pending, has been executed once, and its
    key is in [completed] with status [SUCCESS] or in [failed] with
    status [FAILED]. *)
Definition task_progress (completed failed : list string) (t0 t : Task) : Prop :=
  (t = t0 ∧ (task_id t ∉ completed) ∧ (task_id t ∉ failed))
  ∨ (status t0 = PENDING ∧ try_count t = S (try_count t0)
     ∧ ((status t = SUCCESS ∧ task_id t ∈ completed ∧ (task_id t ∉ failed))
        ∨ (status t = FAILED ∧ task_id t ∈ failed ∧ (task_id t ∉ completed)))).

Record run_inv (st : loop_state) : Prop := {
  ri_keys : task_ids (ls_tasks st) = task_ids ts0;
  ri_tasks : ∀ t, t ∈ ls_tasks st →
    ∃ t0, t0 ∈ ts0 ∧ task_id t0 = task_id t
          ∧ task_progress (ls_completed st) (ls_failed st) t0 t;
  ri_lists : ∀ x, x ∈ ls_completed st ++ ls_failed st → x ∈ task_ids ts0;
  ri_completed : tasks_completed (ls_run st) = ls_completed st;
  ri_failed : tasks_failed (ls_run st) = ls_failed st
}.

Lemma task_progress_pending completed failed t0 t :
  task_progress completed failed t0 t → status t = PENDING →
  t = t0 ∧ (task_id t ∉ completed) ∧ (task_id t ∉ failed).
Proof.
  intros [H|(_ & _ & [(Hs & _)|(Hs & _)])] Hp; [done|congruence..].
Qed.

Lemma task_progress_other completed failed t0 t x :
  task_progress completed failed t0 t → x ≠ task_id t →
  task_progress (completed ++ [x]) failed t0 t
  ∧ task_progress completed (failed ++ [x]) t0 t.
Proof.
  intros Hp Hx.
  assert (∀ l, task_id t ∉ l → task_id t ∉ l ++ [x]) as Hout.
  { intros l Hl [?|?%list_elem_of_singleton]%elem_of_app; done. }
  assert (∀ l, task_id t ∈ l → task_id t ∈ l ++ [x]) as Hin.
  { intros l Hl. apply elem_of_app. by left. }
  unfold task_progress.
  destruct Hp as [(-> & ? & ?)|(? & ? & [(? & ? & ?)|(? & ? & ?)])].
  - split; left; auto.
  - split; right; (split; [done|]); (split; [done|]); left; auto.
  - split; right; (split; [done|]); (split; [done|]); right; auto.
Qed.

(** One pass of the body of the [for] loop on a task that is still
    pending keeps the invariant, and leaves the other tasks in place. *)
Lemma run_task_inv st task :
  run_inv st → task ∈ ls_tasks st → status task = PENDING →
  run_inv (run_task st task)
  ∧ (∀ x, x ∈ ls_tasks st → task_id x ≠ task_id task →
          x ∈ ls_tasks (run_task st task))
  ∧ same_run st (run_task st task).
Proof.
  intros [Hkeys Htasks Hlists Hc Hf] Hin Hpend.
  assert (NoDup (task_ids (ls_tasks st))) as Hnd by (by rewrite Hkeys).
  assert (task_id task ∈ task_ids (ls_tasks st)) as Hid.
  { by apply list_elem_of_fmap_2. }
  destruct (Htasks task Hin) as (t0 & Ht0 & Hid0 & Hprog).
  apply task_progress_pending in Hprog as (-> & Hnc & Hnf); [|done].
  unfold run_task. rewrite (tasks_get_elem _ _ Hnd Hin).
  pose proof (execute_task_id (ls_clock st) t0) as Eid.
  pose proof (execute_try_count (ls_clock st) t0) as Etry.
  pose proof (execute_status (ls_clock st) t0) as Est.
  destruct (execute (ls_clock st) t0) as [[raised t'] clock'].
  simpl in Eid, Etry, Est.
  assert (∀ x, x ∈ tasks_set (ls_tasks st) t' ↔
               x = t' ∨ (x ∈ ls_tasks st ∧ task_id x ≠ task_id t0)) as Hset.
  { intros x. rewrite tasks_set_elem by (done || by rewrite Eid).
    by rewrite Eid. }
  assert (task_ids (tasks_set (ls_tasks st) t') = task_ids ts0) as Hkeys'.
  { rewrite tasks_set_ids, Eid, decide_True; done. }
  destruct raised as [e|]; simpl; (split; [split; simpl|split; simpl]);
    try done.
  - intros x [->|[Hx Hne]]%Hset.
    + exists t0. split; [done|]. split; [done|]. right.
      split; [done|]. split; [done|]. right. rewrite Eid.
      split; [done|]. split; [|done]. apply elem_of_app. right. by left.
    + destruct (Htasks x Hx) as (x0 & Hx0 & Hidx & Hp).
      exists x0. split; [done|]. split; [done|].
      rewrite Eid. by apply (task_progress_other _ _ _ _ (task_id t0)) in Hp as [_ ?].
  - intros x Hx. rewrite Eid in Hx. rewrite app_assoc in Hx.
    apply elem_of_app in Hx as [Hx|Hx%list_elem_of_singleton]; [by apply Hlists|].
    subst x. rewrite <- Hkeys. done.
  - by rewrite Hf.
  - intros x Hx Hne. apply Hset. by right.
  - intros x [->|[Hx Hne]]%Hset.
    + exists t0. split; [done|]. split; [done|]. right.
      split; [done|]. split; [done|]. left. rewrite Eid.
      split; [done|]. split; [|done]. apply elem_of_app. right. by left.
    + destruct (Htasks x Hx) as (x0 & Hx0 & Hidx & Hp).
      exists x0. split; [done|]. split; [done|].
      rewrite Eid. by apply (task_progress_other _ _ _ _ (task_id t0)) in Hp as [? _].
  - intros x Hx. rewrite Eid in Hx.
    rewrite <- app_assoc in Hx.
    apply elem_of_app in Hx as [Hx|Hx].
    + apply Hlists, elem_of_app. by left.
    + apply elem_of_app in Hx as [Hx%list_elem_of_singleton|Hx].
      * subst x. by rewrite <- Hkeys.
      * apply Hlists, elem_of_app. by right.
  - by rewrite Hc.
  - intros x Hx Hne. apply Hset. by right.
Qed.

(** The [for] loop over tasks that are pending objects of the mapping. *)
Lemma run_tasks_inv (l : list Task) st :
  run_inv st → NoDup (task_ids l) →
  (∀ task, task ∈ l → task ∈ ls_tasks st ∧ status task = PENDING) →
  run_inv (foldl run_task st l) ∧ same_run st (foldl run_task st l).
Proof.
  revert st. induction l as [|task l IH]; intros st Hinv Hnd Hl; [done|].
  apply NoDup_cons in Hnd as [Hfresh Hnd].
  destruct (Hl task) as [Hin Hpend]; [by left|].
  destruct (run_task_inv st task Hinv Hin Hpend) as (Hinv1 & Hothers & Hrid).
  simpl. destruct (IH (run_task st task) Hinv1 Hnd) as [Hinv2 Hrid2].
  - intros task' Ht'. destruct (Hl task') as [Hin' Hpend']; [by right|].
    split; [|done]. apply Hothers; [done|]. intros Heq. apply Hfresh.
    rewrite <- Heq. by apply list_elem_of_fmap_2.
  - split; [done|]. by apply (same_run_trans _ (run_task st task)).
Qed.

Lemma slice_to_sublist {A} (l : list A) n : sublist (slice_to l n) l.
Proof. unfold slice_to. destruct (decide (0 ≤ n)); apply sublist_take. Qed.

(** One iteration of the [while] loop keeps the invariant. *)
Lemma run_iteration_inv max_parallel st :
  run_inv st →
  run_inv (run_iteration max_parallel st)
  ∧ same_run st (run_iteration max_parallel st).
Proof.
  intros Hinv. unfold run_iteration. rewrite get_ready_tasks_filter. simpl.
  assert (sublist (slice_to (filter (ready (ls_completed st)) (ls_tasks st))
                            max_parallel) (ls_tasks st)) as Hsub.
  { etransitivity; [apply slice_to_sublist|apply sublist_filter]. }
  apply run_tasks_inv; [done| |].
  - apply (sublist_NoDup _ (task_ids (ls_tasks st))).
    + rewrite (ri_keys _ Hinv). done.
    + unfold task_ids. by apply fmap_sublist.
  - intros task Ht. split; [by apply (elem_of_sublist _ _ _ Ht)|].
    pose proof (elem_of_sublist _ _ _ Ht (slice_to_sublist _ _)) as Hf.
    by apply list_elem_of_filter in Hf as [[? _] _].
Qed.

Lemma run_iterations_inv max_parallel n st :
  run_inv st →
  run_inv (Nat.iter n (run_iteration max_parallel) st)
  ∧ same_run st (Nat.iter n (run_iteration max_parallel) st).
Proof.
  intros Hinv. induction n as [|n [IH1 IH2]]; [done|]. simpl.
  destruct (run_iteration_inv max_parallel _ IH1) as [? Hrid].
  split; [done|]. by apply (same_run_trans _ _ _ IH2).
Qed.

(** When the [while] loop returns, the invariant holds of its state and
    its guard is false. *)
Lemma run_loop_inv fuel max_parallel st st' :
  run_inv st → run_loop fuel max_parallel st = Returned st' →
  run_inv st'
  ∧ same_run st st'
  ∧ (length (ls_tasks st') ≤ length (ls_completed st') + length (ls_failed st'))%nat.
Proof.
  revert st. induction fuel as [|fuel IH]; intros st Hinv; simpl.
  - destruct (decide _) as [Hlt|Hge]; [done|]. intros [= <-].
    split; [done|]. split; [done|lia].
  - destruct (decide _) as [Hlt|Hge].
    + intros Hrun. destruct (run_iteration_inv max_parallel st Hinv) as [Hinv1 Hrid].
      destruct (IH _ Hinv1 Hrun) as (? & Hrid' & ?).
      split; [done|]. split; [by apply (same_run_trans _ _ _ Hrid)|done].
    + intros [= <-]. split; [done|]. split; [done|lia].
Qed.

(** The [failed] list holds exactly the tasks that failed in the run. *)
Lemma run_inv_failed st x :
  run_inv st → (x ∈ ls_failed st ↔ failed_in_run ts0 (ls_tasks st) x).
Proof.
  intros [Hkeys Htasks Hlists _ _]. split.
  - intros Hx.
    assert (x ∈ task_ids (ls_tasks st)) as Hk.
    { rewrite Hkeys. apply Hlists, elem_of_app. by right. }
    apply list_elem_of_fmap in Hk as (t & -> & Ht).
    destruct (Htasks t Ht) as (t0 & Ht0 & Hid & Hp).
    exists t0, t. split; [done|]. split; [done|]. split; [done|]. split; [done|].
    destruct Hp as [(_ & _ & Hnf)|(_ & Htry & [(_ & _ & Hnf)|(Hs & _ & _)])];
      done.
  - intros (t0 & t & Ht0 & Ht & Hid0 & Hid & Htry & Hs).
    destruct (Htasks t Ht) as (t0' & Ht0' & Hid' & Hp).
    assert (t0' = t0) as ->.
    { apply (task_ids_inj ts0); [done..|congruence]. }
    destruct Hp as [(-> & _)|(_ & _ & [(Hs' & _)|(_ & Hf & _)])].
    + lia.
    + congruence.
    + by rewrite <- Hid.
Qed.

Lemma run_inv_at_most_once st t :
  run_inv st → t ∈ ls_tasks st →
  ∃ t0, t0 ∈ ts0 ∧ executed_at_most_once t0 t.
Proof.
  intros [_ Htasks _ _ _] Ht.
  destruct (Htasks t Ht) as (t0 & Ht0 & Hid & Hp).
  exists t0. split; [done|]. split; [done|].
  destruct Hp as [(-> & _)|(Hp0 & Htry & [(Hs & _)|(Hs & _)])].
  - by left.
  - right. rewrite Hs. done.
  - right. rewrite Hs. done.
Qed.

End RunLoop.

Lemma run_start_inv digest (d : DAG) did clock :
  run_inv (tasks d) (run_start digest d did clock).
Proof.
  split; simpl; try done.
  - intros t Ht. exists t. split; [done|]. split; [done|]. left.
    split; [done|]. split; apply not_elem_of_nil.
  - by intros x ?%elem_of_nil.
Qed.

(** What [run_dag] does once the DAG is found and the loop has returned. *)
Lemma run_dag_returned digest fuel e did max_parallel clock d rid e' clock' :
  dags e !! did = Some d → wf_DAG d →
  run_dag digest fuel e did max_parallel clock = Returned (rid, e', clock') →
  ∃ st order,
    run_loop fuel max_parallel (run_start digest d did clock) = Returned st
    ∧ run_inv (tasks d) st
    ∧ rid = digest did clock
    ∧ run_id (ls_run st) = rid
    ∧ run_dag_id (ls_run st) = did
    ∧ e' = {| storage_path := storage_path e;
              dags := <[did := {| dag_id := dag_id d; tasks := ls_tasks st;
                                  execution_order := order |}]> (dags e);
              runs := <[rid := run_finish st]> (runs e);
              storage := <[rid := run_finish st]> (storage e) |}.
Proof.
  intros Hd Hwf Hrun. unfold run_dag in Hrun. rewrite Hd in Hrun.
  destruct (topological_sort_returns_sorted d Hwf) as (order & E & _).
  rewrite E in Hrun. simpl in Hrun.
  change (run_start digest _ did clock)
    with (run_start digest d did clock) in Hrun.
  destruct (run_loop fuel max_parallel (run_start digest d did clock))
    as [st| |] eqn:Eloop; simpl in Hrun; [|done..].
  destruct (run_loop_inv (tasks d) Hwf fuel max_parallel _ st
              (run_start_inv digest d did clock) Eloop) as (Hinv & [Hrid Hdid] & _).
  simpl in Hrid, Hdid. injection Hrun as <- <- <-.
  exists st, order. rewrite Hrid. done.
Qed.

(** C2.  Whenever [run_dag] returns for a registered DAG, the run id it
    returns is the key under which the terminal record is in the storage
    (and in [runs]); the record lists as failed exactly the tasks that
    the run executed and left [FAILED]; and its status is "failed" if
    there is such a task and "completed" otherwise. *)
Theorem run_dag_terminal_record (digest : string → nat → string) (fuel : nat)
    (e : WorkflowEngine) (did : string) (max_parallel : Z) (clock : nat)
    (d : DAG) (rid : string) (e' : WorkflowEngine) (clock' : nat) :
  dags e !! did = Some d → wf_DAG d →
  run_dag digest fuel e did max_parallel clock = Returned (rid, e', clock') →
  ∃ run d',
    get_run e' rid = Some run ∧ runs e' !! rid = Some run
    ∧ run_id run = rid ∧ run_dag_id run = did
    ∧ dags e' !! did = Some d'
    ∧ (∀ x, x ∈ tasks_failed run ↔ failed_in_run (tasks d) (tasks d') x)
    ∧ ((∃ x, failed_in_run (tasks d) (tasks d') x) → run_status run = "failed")
    ∧ (¬ (∃ x, failed_in_run (tasks d) (tasks d') x) →
       run_status run = "completed").
Proof.
  intros Hd Hwf Hrun.
  destruct (run_dag_returned _ _ _ _ _ _ _ _ _ _ Hd Hwf Hrun)
    as (st & order & Eloop & Hinv & Hrid & Hrid' & Hdid & ->).
  exists (run_finish st), {| dag_id := dag_id d; tasks := ls_tasks st;
                             execution_order := order |}.
  unfold get_run. simpl. rewrite !lookup_insert_eq.
  split; [done|]. split; [done|]. split; [done|]. split; [done|].
  split; [done|]. rewrite (ri_failed _ _ Hinv).
  split; [intros x; by apply run_inv_failed|]. split.
  - intros [x Hx]. apply (run_inv_failed (tasks d) Hwf st x Hinv) in Hx.
    destruct (ls_failed st); [by apply elem_of_nil in Hx|done].
  - intros Hnone. destruct (ls_failed st) as [|x l] eqn:Ef; [done|].
    exfalso. apply Hnone. exists x.
    apply (run_inv_failed (tasks d) Hwf st x Hinv). rewrite Ef. by left.
Qed.

Lemma failing_dag_wf : wf_DAG failing_dag.
Proof. apply (bool_decide_unpack _). by vm_compute. Qed.

Lemma sample_dag_wf : wf_DAG sample_dag.
Proof. apply (bool_decide_unpack _). by vm_compute. Qed.

(** The run of [failing_dag], whose second task always raises: it returns
    and the record is "failed". *)
Example run_dag_failing_dag :
  ∃ e' clock',
    run_dag digest_of_id 10 (register_dag (new_WorkflowEngine "workflows") failing_dag)
      "failing" 4 0 = Returned ("failing", e', clock')
    ∧ get_run e' "failing"
      = Some {| run_id := "failing"; run_dag_id := "failing";
                run_status := "failed"; run_started_at := 1;
                run_completed_at := Some 6%nat;
                tasks_completed := ["good"]; tasks_failed := ["bad"] |}.
Proof. eexists _, _. split; [by vm_compute|]. by vm_compute. Qed.

Lemma run_dag_terminal_record_witness :
  ∃ e' clock',
    run_dag digest_of_id 10 (register_dag (new_WorkflowEngine "workflows") failing_dag)
      "failing" 4 0 = Returned ("failing", e', clock')
    ∧ ∃ run d',
        get_run e' "failing" = Some run ∧ runs e' !! "failing" = Some run
        ∧ run_id run = "failing" ∧ run_dag_id run = "failing"
        ∧ dags e' !! "failing" = Some d'
        ∧ (∀ x, x ∈ tasks_failed run ↔ failed_in_run (tasks failing_dag) (tasks d') x)
        ∧ ((∃ x, failed_in_run (tasks failing_dag) (tasks d') x) →
           run_status run = "failed")
        ∧ (¬ (∃ x, failed_in_run (tasks failing_dag) (tasks d') x) →
           run_status run = "completed").
Proof.
  eexists _, _. split; [by vm_compute|].
  eapply (run_dag_terminal_record digest_of_id 10
            (register_dag (new_WorkflowEngine "workflows") failing_dag)
            "failing" 4 0 failing_dag).
  - by vm_compute.
  - exact failing_dag_wf.
  - by vm_compute.
Defined.

(** C9.  Within one call of [run_dag] on a registered DAG, every task is
    executed at most once: after any number of iterations of the driving
    loop, and in the DAG that [run_dag] leaves when it returns, each task
    has either the attempt counter it had when the call began, or that
    counter plus one, in which case it was [PENDING] when the call began
    and is no longer [PENDING]. *)
Theorem run_dag_each_task_at_most_once (digest : string → nat → string)
    (e : WorkflowEngine) (did : string) (max_parallel : Z) (clock : nat)
    (d : DAG) :
  dags e !! did = Some d → wf_DAG d →
  (∀ n t, t ∈ ls_tasks (Nat.iter n (run_iteration max_parallel)
                          (run_start digest d did clock)) →
          ∃ t0, t0 ∈ tasks d ∧ executed_at_most_once t0 t)
  ∧ (∀ fuel rid e' clock',
       run_dag digest fuel e did max_parallel clock = Returned (rid, e', clock') →
       ∃ d', dags e' !! did = Some d'
             ∧ task_ids (tasks d') = task_ids (tasks d)
             ∧ ∀ t, t ∈ tasks d' → ∃ t0, t0 ∈ tasks d ∧ executed_at_most_once t0 t).
Proof.
  intros Hd Hwf. split.
  - intros n t Ht.
    destruct (run_iterations_inv (tasks d) Hwf max_parallel n _
                (run_start_inv digest d did clock)) as [Hinv _].
    by apply (run_inv_at_most_once (tasks d) _ t Hinv).
  - intros fuel rid e' clock' Hrun.
    destruct (run_dag_returned _ _ _ _ _ _ _ _ _ _ Hd Hwf Hrun)
      as (st & order & Eloop & Hinv & Hrid & Hrid' & Hdid & ->).
    exists {| dag_id := dag_id d; tasks := ls_tasks st;
              execution_order := order |}.
    simpl. rewrite lookup_insert_eq. split; [done|].
    split; [apply (ri_keys _ _ Hinv)|].
    intros t Ht. by apply (run_inv_at_most_once (tasks d) _ t Hinv).
Qed.

Lemma run_dag_each_task_at_most_once_witness :
  let e := register_dag (new_WorkflowEngine "workflows") sample_dag in
  (∀ n t, t ∈ ls_tasks (Nat.iter n (run_iteration 4)
                          (run_start digest_of_id sample_dag "sample_dag" 0)) →
          ∃ t0, t0 ∈ tasks sample_dag ∧ executed_at_most_once t0 t)
  ∧ (∀ fuel rid e' clock',
       run_dag digest_of_id fuel e "sample_dag" 4 0 = Returned (rid, e', clock') →
       ∃ d', dags e' !! "sample_dag" = Some d'
             ∧ task_ids (tasks d') = task_ids (tasks sample_dag)
             ∧ ∀ t, t ∈ tasks d' → ∃ t0, t0 ∈ tasks sample_dag
                                         ∧ executed_at_most_once t0 t).
Proof.
  apply (run_dag_each_task_at_most_once digest_of_id
           (register_dag (new_WorkflowEngine "workflows") sample_dag)).
  - by vm_compute.
  - exact sample_dag_wf.
Defined.

(** The run of the repository's example DAG. *)
Example run_dag_sample_dag :
  ∃ e' clock',
    run_dag digest_of_id 10 (register_dag (new_WorkflowEngine "workflows") sample_dag)
      "sample_dag" 4 0 = Returned ("sample_dag", e', clock')
    ∧ get_run e' "sample_dag"
      = Some {| run_id := "sample_dag"; run_dag_id := "sample_dag";
                run_status := "completed"; run_started_at := 1;
                run_completed_at := Some 8%nat;
                tasks_completed := ["task_1"; "task_2"; "task_3"];
                tasks_failed := [] |}
    ∧ (fun t => (task_id t, status t, try_count t)) <$>
        default [] (tasks <$> dags e' !! "sample_dag")
      = [("task_1", SUCCESS, 1%nat); ("task_2", SUCCESS, 1%nat);
         ("task_3", SUCCESS, 1%nat)].
Proof. eexists _, _. split; [by vm_compute|]. split; by vm_compute. Qed.

(** ** Further properties of the sort *)

Lemma tc_flip {A} (R : relation A) x y : tc (flip R) x y → tc R y x.
Proof.
  induction 1 as [x y H|x y z H _ IH]; [by apply tc_once|].
  eapply tc_r; [done|]. done.
Qed.

(** In a graph with no cycle every key is accessible along the edges. *)
Lemma acyclic_accessible d x : ¬ has_cycle d → Acc (dep_edge d) x.
Proof.
  intros Hno.
  change (Acc (flip (flip (dep_edge d))) x).
  apply (tc_finite_sn (R := flip (dep_edge d))).
  - intros y Hy. apply Hno. exists y. by apply tc_flip.
  - exists (task_ids (tasks d)). intros y Hy%tc_flip.
    by apply (tc_dep_edge_source d y x).
Qed.

(** Every DAG is sorted: [topological_sort] returns, the order holds
    distinct keys of the mapping, and a task that is in the order comes
    after each of its dependencies that is a key of the mapping. *)
Theorem topological_sort_total_and_ordered (d : DAG) :
  wf_DAG d →
  ∃ order,
    topological_sort d = Returned (sorted_as d order)
    ∧ NoDup order
    ∧ (∀ x, x ∈ order → x ∈ task_ids (tasks d))
    ∧ (∀ t dep, t ∈ tasks d → task_id t ∈ order →
                dep ∈ depends_on t → dep ∈ task_ids (tasks d) →
                before order dep (task_id t)).
Proof.
  intros Hwf.
  destruct (topological_sort_returns_sorted d Hwf)
    as (order & E & _ & Hnd & Hsub & Hsorted & _).
  by exists order.
Qed.

Lemma topological_sort_total_and_ordered_witness :
  ∃ order,
    topological_sort sample_dag = Returned (sorted_as sample_dag order)
    ∧ NoDup order
    ∧ (∀ x, x ∈ order → x ∈ task_ids (tasks sample_dag))
    ∧ (∀ t dep, t ∈ tasks sample_dag → task_id t ∈ order →
                dep ∈ depends_on t → dep ∈ task_ids (tasks sample_dag) →
                before order dep (task_id t)).
Proof. apply topological_sort_total_and_ordered. exact sample_dag_wf. Defined.

(** When the graph has no cycle and no task lists a dependency twice, the
    order is a permutation of the keys of the mapping: every task is
    placed, after each of its dependencies that is a key of the mapping. *)
Theorem topological_sort_complete (d : DAG) :
  wf_DAG d → ¬ has_cycle d →
  (∀ t, t ∈ tasks d → NoDup (depends_on t)) →
  ∃ order,
    topological_sort d = Returned (sorted_as d order)
    ∧ order ≡ₚ task_ids (tasks d)
    ∧ (∀ t dep, t ∈ tasks d → dep ∈ depends_on t →
                dep ∈ task_ids (tasks d) → before order dep (task_id t)).
Proof.
  intros Hwf Hno Hdeps.
  destruct (topological_sort_returns_sorted d Hwf)
    as (order & E & _ & Hnd & Hsub & Hsorted & Hplaced).
  assert (∀ x, x ∈ task_ids (tasks d) → x ∈ order) as Hall.
  { intros x. induction (acyclic_accessible d x Hno) as [x _ IH].
    intros (t & -> & Ht)%list_elem_of_fmap.
    apply Hplaced; [done|by apply Hdeps|].
    intros dep Hdep Hk. apply IH; [|done]. by exists t. }
  exists order. split; [done|]. split.
  - apply NoDup_Permutation; [done..|]. intros x. split; [apply Hsub|apply Hall].
  - intros t dep Ht Hdep Hk. apply Hsorted; [done| |done..].
    apply Hall. by apply list_elem_of_fmap_2.
Qed.

Lemma sample_dag_acyclic : ¬ has_cycle sample_dag.
Proof.
  apply (ranked_no_cycle _ (fun x => if decide (x = "task_1") then 0 else 1)%nat).
  intros a b (t & Ht & <- & Hdep & _).
  repeat (apply elem_of_cons in Ht as [->|Ht]);
    [by apply elem_of_nil in Hdep| | |by apply elem_of_nil in Ht];
    apply list_elem_of_singleton in Hdep as ->; vm_compute; lia.
Qed.

Lemma topological_sort_complete_witness :
  ∃ order,
    topological_sort sample_dag = Returned (sorted_as sample_dag order)
    ∧ order ≡ₚ task_ids (tasks sample_dag)
    ∧ (∀ t dep, t ∈ tasks sample_dag → dep ∈ depends_on t →
                dep ∈ task_ids (tasks sample_dag) →
                before order dep (task_id t)).
Proof.
  apply topological_sort_complete.
  - exact sample_dag_wf.
  - exact sample_dag_acyclic.
  - intros t Ht.
    repeat (apply elem_of_cons in Ht as [->|Ht]);
      [apply NoDup_nil_2|apply NoDup_singleton..|by apply elem_of_nil in Ht].
Defined.

(** A state in which the loop condition holds and that an iteration
    leaves as it is: the loop never ends. *)
Lemma run_loop_stalled (max_parallel : Z) (st : loop_state) (fuel : nat) :
  (length (ls_completed st) + length (ls_failed st) < length (ls_tasks st))%nat →
  run_iteration max_parallel st = st →
  run_loop fuel max_parallel st = OutOfFuel.
Proof.
  intros Hcond Hsame. induction fuel as [|fuel IH]; simpl.
  - by rewrite decide_True.
  - rewrite decide_True by done. by rewrite Hsame.
Qed.

(** When a task fails, a task that depends on it stays [PENDING] and is
    never ready, so the loop of [run_dag] never ends: whatever the number
    of iterations allowed, the run of [blocked_dag] has not returned. *)
Example run_dag_blocked_dag (fuel : nat) (clock : nat) :
  run_dag digest_of_id fuel
    (register_dag (new_WorkflowEngine "workflows") blocked_dag)
    "blocked" 4 clock = OutOfFuel.
Proof.
  assert (topological_sort blocked_dag
          = Returned (sorted_as blocked_dag ["bad"; "child"])) as E
    by (by vm_compute).
  unfold run_dag.
  replace (dags (register_dag (new_WorkflowEngine "workflows") blocked_dag)
             !! "blocked") with (Some blocked_dag) by (by vm_compute).
  rewrite E. cbn [mbind outcome_bind snd].
  destruct fuel as [|fuel]; [done|].
  change (run_loop (S fuel) 4 ?st)
    with (run_loop fuel 4 (run_iteration 4 st)).
  rewrite run_loop_stalled; [done| |].
  - vm_compute. lia.
  - by vm_compute.
Qed.

(** Each call of [execute] adds exactly one to the attempt counter,
    whether the executable returns or raises: after [n] calls in a row
    the counter has grown by [n]. *)
Theorem execute_counts_attempts (n : nat) (clock : nat) (t : Task) :
  try_count
    (Nat.iter n (λ tc : Task * nat, ((execute tc.2 tc.1).1.2, (execute tc.2 tc.1).2))
       (t, clock)).1
  = (n + try_count t)%nat.
Proof.
  induction n as [|n IH]; [done|].
  simpl. rewrite execute_try_count. by rewrite IH.
Qed.

(** ** The order in which a run executes the tasks *)

(** What one pass of the body of the [for] loop appends, when [task] is
    the object of the mapping. *)
Lemma run_task_lists st task :
  tasks_get (ls_tasks st) (task_id task) = Some task →
  match attempt task with
  | Returns _ =>
      ls_completed (run_task st task) = ls_completed st ++ [task_id task]
      ∧ ls_failed (run_task st task) = ls_failed st
  | Raises _ =>
      ls_completed (run_task st task) = ls_completed st
      ∧ ls_failed (run_task st task) = ls_failed st ++ [task_id task]
  end.
Proof.
  intros E. unfold run_task, attempt. rewrite E. unfold execute.
  by destruct (func task _ _).
Qed.

Lemma run_loop_not_raised fuel max_parallel st e :
  run_loop fuel max_parallel st ≠ Raised e.
Proof.
  revert st. induction fuel as [|fuel IH]; intros st; simpl;
    destruct (decide _); first [done|apply IH].
Qed.


Section RunOrder.

Variable ts0 : list Task.
Hypothesis ts0_keys : NoDup (task_ids ts0).

(** No key is in the two lists together or twice in one.  A key of
    [completed] is the key of a task whose executable returned and whose
    dependencies were all in [completed] before it; a key of [failed] is
    the key of a task whose executable raised and whose dependencies are
    all in [completed]. *)
Record run_order (st : loop_state) : Prop := {
  ro_nodup : NoDup (ls_completed st ++ ls_failed st);
  ro_completed : ∀ j t0, t0 ∈ ts0 → ls_completed st !! j = Some (task_id t0) →
    (∃ v, attempt t0 = Returns v)
    ∧ ∀ dep, dep ∈ depends_on t0 → dep ∈ take j (ls_completed st);
  ro_failed : ∀ t0, t0 ∈ ts0 → task_id t0 ∈ ls_failed st →
    (∃ msg, attempt t0 = Raises msg)
    ∧ ∀ dep, dep ∈ depends_on t0 → dep ∈ ls_completed st
}.

Lemma run_task_order st task :
  run_inv ts0 st → run_order st → task ∈ ls_tasks st → status task = PENDING →
  (∀ dep, dep ∈ depends_on task → dep ∈ ls_completed st) →
  run_order (run_task st task)
  ∧ handled (run_task st task) = S (handled st)
  ∧ (∀ x, x ∈ ls_completed st → x ∈ ls_completed (run_task st task)).
Proof.
  intros Hinv [Hnd Hc Hf] Hin Hpend Hdeps.
  assert (NoDup (task_ids (ls_tasks st))) as Hkeys
    by (by rewrite (ri_keys _ _ Hinv)).
  destruct (ri_tasks _ _ Hinv task Hin) as (t0 & Ht0 & Hid0 & Hprog).
  apply task_progress_pending in Hprog as (-> & Hnc & Hnf); [|done].
  pose proof (run_task_lists st t0 (tasks_get_elem _ _ Hkeys Hin)) as Hl.
  unfold handled.
  destruct (attempt t0) as [v|msg] eqn:Ea; destruct Hl as [Hlc Hlf].
  - split; [split|split]; rewrite ?Hlc, ?Hlf.
    + rewrite <- app_assoc. apply NoDup_app in Hnd as (Hn1 & Hdisj & Hn2).
      apply NoDup_app. split; [done|]. split.
      * intros x Hx [->%list_elem_of_singleton|Hx']%elem_of_app; [done|].
        by apply (Hdisj x).
      * apply NoDup_app. split; [apply NoDup_singleton|]. split; [|done].
        by intros x ->%list_elem_of_singleton.
    + intros j t Ht [Hj|[Hge Hj]]%lookup_app_Some.
      * destruct (Hc j t Ht Hj) as [Hv Hd]. split; [done|].
        intros dep Hdep. rewrite take_app_le by (apply lookup_lt_Some in Hj; lia).
        by apply Hd.
      * apply list_lookup_singleton_Some in Hj as [Hj Hid].
        assert (t = t0) as ->.
        { by apply (task_ids_inj ts0). }
        split; [by exists v|]. intros dep Hdep.
        assert (j = length (ls_completed st)) as -> by lia.
        rewrite take_app_length. by apply Hdeps.
    + intros t Ht Hin'. destruct (Hf t Ht Hin') as [Hm Hd]. split; [done|].
      intros dep Hdep. apply elem_of_app. left. by apply Hd.
    + rewrite length_app. simpl. lia.
    + intros x Hx. apply elem_of_app. by left.
  - split; [split|split]; rewrite ?Hlc, ?Hlf.
    + rewrite app_assoc. apply NoDup_app. split; [done|]. split.
      * intros x Hx Hid%list_elem_of_singleton. subst x.
        by apply elem_of_app in Hx as [?|?].
      * apply NoDup_singleton.
    + done.
    + intros t Ht [Hin'|Hid%list_elem_of_singleton]%elem_of_app.
      * by apply Hf.
      * assert (t = t0) as ->.
        { by apply (task_ids_inj ts0). }
        split; [by exists msg|done].
    + rewrite length_app. simpl. lia.
    + done.
Qed.

Lemma run_tasks_order (l : list Task) st :
  run_inv ts0 st → run_order st → NoDup (task_ids l) →
  (∀ task, task ∈ l → task ∈ ls_tasks st ∧ status task = PENDING
                      ∧ ∀ dep, dep ∈ depends_on task → dep ∈ ls_completed st) →
  run_order (foldl run_task st l)
  ∧ handled (foldl run_task st l) = (handled st + length l)%nat.
Proof.
  revert st. induction l as [|task l IH]; intros st Hinv Hord Hnd Hl.
  { split; [done|]. simpl. lia. }
  apply NoDup_cons in Hnd as [Hfresh Hnd].
  destruct (Hl task) as (Hin & Hpend & Hdeps); [by left|].
  destruct (run_task_inv ts0 ts0_keys st task Hinv Hin Hpend)
    as (Hinv1 & Hothers & _).
  destruct (run_task_order st task Hinv Hord Hin Hpend Hdeps)
    as (Hord1 & Hcount & Hmono).
  simpl. destruct (IH (run_task st task) Hinv1 Hord1 Hnd) as [Hord2 Hcount2].
  - intros task' Ht'. destruct (Hl task') as (Hin' & Hpend' & Hdeps'); [by right|].
    split; [|split; [done|]].
    + apply Hothers; [done|]. intros Heq. apply Hfresh.
      rewrite <- Heq. by apply list_elem_of_fmap_2.
    + intros dep Hdep. by apply Hmono, Hdeps'.
  - split; [done|]. rewrite Hcount2, Hcount. simpl. lia.
Qed.

(** One iteration of the [while] loop: it deals with as many tasks as
    the slice of the ready list holds. *)
Lemma run_iteration_order max_parallel st :
  run_inv ts0 st → run_order st →
  run_order (run_iteration max_parallel st)
  ∧ handled (run_iteration max_parallel st)
    = (handled st
       + length (slice_to (filter (ready (ls_completed st)) (ls_tasks st))
                          max_parallel))%nat.
Proof.
  intros Hinv Hord. unfold run_iteration. rewrite get_ready_tasks_filter. simpl.
  assert (sublist (slice_to (filter (ready (ls_completed st)) (ls_tasks st))
                            max_parallel) (ls_tasks st)) as Hsub.
  { etransitivity; [apply slice_to_sublist|apply sublist_filter]. }
  apply run_tasks_order; [done..| |].
  - apply (sublist_NoDup _ (task_ids (ls_tasks st))).
    + rewrite (ri_keys _ _ Hinv). done.
    + unfold task_ids. by apply fmap_sublist.
  - intros task Ht. split; [by apply (elem_of_sublist _ _ _ Ht)|].
    pose proof (elem_of_sublist _ _ _ Ht (slice_to_sublist _ _)) as Hf.
    apply list_elem_of_filter in Hf as [[? Hall] _]. split; [done|].
    intros dep Hdep. rewrite Forall_forall in Hall. by apply Hall.
Qed.

Lemma run_loop_order fuel max_parallel st st' :
  run_inv ts0 st → run_order st →
  run_loop fuel max_parallel st = Returned st' → run_order st'.
Proof.
  revert st. induction fuel as [|fuel IH]; intros st Hinv Hord; simpl.
  - destruct (decide _); [done|]. by intros [= <-].
  - destruct (decide _); [|by intros [= <-]].
    apply IH.
    + by apply run_iteration_inv.
    + by apply run_iteration_order.
Qed.

End RunOrder.

Lemma run_start_order digest (d : DAG) did clock :
  run_order (tasks d) (run_start digest d did clock).
Proof.
  split; simpl.
  - apply NoDup_nil_2.
  - by intros j t0 _ ?.
  - by intros t0 _ ?%elem_of_nil.
Qed.

(** ** The loop of [run_dag] from its first state *)

Lemma run_dag_registered digest fuel e did max_parallel clock d :
  dags e !! did = Some d → wf_DAG d →
  ∃ order,
    run_dag digest fuel e did max_parallel clock
    = (st ← run_loop fuel max_parallel (run_start digest d did clock);
       Returned (run_id (run_finish st),
                 {| storage_path := storage_path e;
                    dags := <[did := {| dag_id := dag_id d; tasks := ls_tasks st;
                                        execution_order := order |}]> (dags e);
                    runs := <[run_id (run_finish st) := run_finish st]> (runs e);
                    storage := <[run_id (run_finish st) := run_finish st]> (storage e) |},
                 S (ls_clock st))).
Proof.
  intros Hd Hwf. unfold run_dag. rewrite Hd.
  destruct (topological_sort_returns_sorted d Hwf) as (order & E & _).
  rewrite E. by exists order.
Qed.

(** [run_dag] on a registered DAG raises nothing: when the loop does not
    return, neither does [run_dag]. *)
Lemma run_dag_no_return digest fuel e did max_parallel clock d :
  dags e !! did = Some d → wf_DAG d →
  (∀ st, run_loop fuel max_parallel (run_start digest d did clock) ≠ Returned st) →
  run_dag digest fuel e did max_parallel clock = OutOfFuel.
Proof.
  intros Hd Hwf Hno.
  destruct (run_dag_registered digest fuel e did max_parallel clock d Hd Hwf)
    as [order ->].
  destruct (run_loop fuel max_parallel (run_start digest d did clock))
    as [st|ex|] eqn:E; [by destruct (Hno st)| |done].
  by apply run_loop_not_raised in E.
Qed.


Section RunEnd.

Variable ts0 : list Task.
Hypothesis ts0_keys : NoDup (task_ids ts0).

Lemma handled_length st :
  handled st = length (ls_completed st ++ ls_failed st).
Proof. unfold handled. by rewrite length_app. Qed.

Lemma run_inv_length st : run_inv ts0 st → length (ls_tasks st) = length ts0.
Proof.
  intros Hinv. rewrite <- (length_fmap task_id (ls_tasks st)).
  fold (task_ids (ls_tasks st)). rewrite (ri_keys _ _ Hinv).
  unfold task_ids. by rewrite length_fmap.
Qed.

(** When the guard of the loop is false every key is in one of the two
    lists. *)
Lemma run_inv_all_handled st :
  run_inv ts0 st → run_order ts0 st → (length ts0 ≤ handled st)%nat →
  ls_completed st ++ ls_failed st ≡ₚ task_ids ts0.
Proof.
  intros Hinv Hord Hlen. apply submseteq_length_Permutation.
  - apply NoDup_submseteq; [apply (ro_nodup _ _ Hord)|apply (ri_lists _ _ Hinv)].
  - rewrite <- handled_length. unfold task_ids. by rewrite length_fmap.
Qed.

Lemma run_inv_executed st t :
  run_inv ts0 st → run_order ts0 st → t ∈ ls_tasks st →
  task_id t ∈ ls_completed st ++ ls_failed st →
  ∃ t0, t0 ∈ ts0 ∧ executed_once (ls_completed st) (ls_failed st) t0 t.
Proof.
  intros Hinv Hord Ht Hin.
  destruct (ri_tasks _ _ Hinv t Ht) as (t0 & Ht0 & Hid & Hp).
  exists t0. split; [done|]. split; [done|].
  destruct Hp as [(_ & Hnc & Hnf)|(Hpend & Htry & Hs)].
  { by apply elem_of_app in Hin as [?|?]. }
  split; [done|]. split; [done|].
  destruct Hs as [(Hs & Hc & _)|(Hs & Hf & _)]; [left|right];
    (split; [done|]); (split; [done|]).
  - apply list_elem_of_lookup in Hc as [j Hj]. rewrite <- Hid in Hj.
    by destruct (ro_completed _ _ Hord j t0 Ht0 Hj).
  - rewrite <- Hid in Hf. by destruct (ro_failed _ _ Hord t0 Ht0 Hf).
Qed.

(** A key of [completed] comes after the dependencies of its task. *)
Lemma run_order_before st t0 dep :
  run_order ts0 st → t0 ∈ ts0 → task_id t0 ∈ ls_completed st →
  dep ∈ depends_on t0 → before (ls_completed st) dep (task_id t0).
Proof.
  intros Hord Ht0 [j Hj]%list_elem_of_lookup Hdep.
  destruct (ro_completed _ _ Hord j t0 Ht0 Hj) as [_ Hd].
  apply Hd, elem_of_take in Hdep as (i & Hi & Hlt).
  by exists i, j.
Qed.

(** The tasks that are ready are not in the lists yet. *)
Lemma ready_bound st :
  run_inv ts0 st → run_order ts0 st →
  (handled st + length (filter (ready (ls_completed st)) (ls_tasks st))
   ≤ length ts0)%nat.
Proof.
  intros Hinv Hord.
  set (r := task_ids (filter (ready (ls_completed st)) (ls_tasks st))).
  assert (length ((ls_completed st ++ ls_failed st) ++ r)
          ≤ length (task_ids ts0))%nat as Hlen.
  { apply submseteq_length, NoDup_submseteq.
    - apply NoDup_app. split; [apply (ro_nodup _ _ Hord)|]. split.
      + intros x Hx (t & -> & [[Hpend _] Ht]%list_elem_of_filter)%list_elem_of_fmap.
        destruct (ri_tasks _ _ Hinv t Ht) as (t0 & _ & _ & Hp).
        apply task_progress_pending in Hp as (_ & Hnc & Hnf); [|done].
        by apply elem_of_app in Hx as [?|?].
      + apply task_ids_filter_nodup. by rewrite (ri_keys _ _ Hinv).
    - intros x [Hx|Hx]%elem_of_app; [by apply (ri_lists _ _ Hinv)|].
      apply list_elem_of_fmap in Hx as (t & -> & [_ Ht]%list_elem_of_filter).
      rewrite <- (ri_keys _ _ Hinv). by apply list_elem_of_fmap_2. }
  rewrite length_app, <- handled_length in Hlen. unfold r, task_ids in Hlen.
  by rewrite !length_fmap in Hlen.
Qed.

Lemma slice_to_nonpositive {A} (l : list A) n :
  n ≤ 0 → l = [] ∨ (length (slice_to l n) < length l)%nat.
Proof.
  intros Hn. destruct l as [|a l]; [by left|right].
  unfold slice_to. destruct (decide (0 ≤ n)).
  - replace n with 0 by lia. simpl. lia.
  - rewrite length_take. simpl. lia.
Qed.


(** With [max_parallel] at most zero the slice of the ready list leaves
    the last ready task out, so the guard of the loop stays true. *)
Lemma run_iteration_nonpositive max_parallel st :
  max_parallel ≤ 0 → run_inv ts0 st → run_order ts0 st →
  (handled st < length ts0)%nat →
  (handled (run_iteration max_parallel st) < length ts0)%nat.
Proof.
  intros Hmp Hinv Hord Hlt.
  destruct (run_iteration_order ts0 ts0_keys max_parallel st Hinv Hord) as [_ ->].
  pose proof (ready_bound st Hinv Hord) as Hb.
  destruct (slice_to_nonpositive
              (filter (ready (ls_completed st)) (ls_tasks st)) max_parallel Hmp)
    as [E|Hl].
  - rewrite E. unfold slice_to.
    destruct (decide _); rewrite length_take; simpl; lia.
  - eapply Nat.lt_le_trans; [|exact Hb]. by apply Nat.add_lt_mono_l.
Qed.

Lemma run_loop_nonpositive fuel max_parallel st :
  max_parallel ≤ 0 → run_inv ts0 st → run_order ts0 st →
  (handled st < length ts0)%nat →
  run_loop fuel max_parallel st = OutOfFuel.
Proof.
  intros Hmp. revert st. induction fuel as [|fuel IH]; intros st Hinv Hord Hlt;
    simpl; (rewrite decide_True by (rewrite (run_inv_length st Hinv); apply Hlt));
    [done|].
  apply IH.
  - by apply run_iteration_inv.
  - by apply run_iteration_order.
  - by apply run_iteration_nonpositive.
Qed.

End RunEnd.

(** ** When the loop of [run_dag] ends *)



(** What the loop leaves when it returns, from the first state. *)
Lemma run_loop_final digest d did clock fuel max_parallel st :
  wf_DAG d →
  run_loop fuel max_parallel (run_start digest d did clock) = Returned st →
  run_inv (tasks d) st ∧ run_order (tasks d) st
  ∧ ls_completed st ++ ls_failed st ≡ₚ task_ids (tasks d)
  ∧ (∀ t, t ∈ ls_tasks st →
          ∃ t0, t0 ∈ tasks d
                ∧ executed_once (ls_completed st) (ls_failed st) t0 t)
  ∧ (∀ t0, t0 ∈ tasks d → status t0 = PENDING).
Proof.
  intros Hwf E.
  destruct (run_loop_inv (tasks d) Hwf fuel max_parallel _ st
              (run_start_inv digest d did clock) E) as (Hinv & _ & Hlen).
  pose proof (run_loop_order (tasks d) Hwf fuel max_parallel _ st
                (run_start_inv digest d did clock)
                (run_start_order digest d did clock) E) as Hord.
  assert (ls_completed st ++ ls_failed st ≡ₚ task_ids (tasks d)) as Hperm.
  { apply run_inv_all_handled; [done..|].
    rewrite <- (run_inv_length (tasks d) st Hinv). by unfold handled. }
  assert (∀ t, t ∈ ls_tasks st →
               ∃ t0, t0 ∈ tasks d
                     ∧ executed_once (ls_completed st) (ls_failed st) t0 t) as Hex.
  { intros t Ht. apply run_inv_executed; [done..|].
    rewrite Hperm, <- (ri_keys _ _ Hinv). by apply list_elem_of_fmap_2. }
  split; [done|]. split; [done|]. split; [done|]. split; [done|].
  intros t0 Ht0.
  assert (task_id t0 ∈ task_ids (ls_tasks st)) as Hk.
  { rewrite (ri_keys _ _ Hinv). by apply list_elem_of_fmap_2. }
  apply list_elem_of_fmap in Hk as (t & Hid & Ht).
  destruct (Hex t Ht) as (t0' & Ht0' & Hid' & Hp & _).
  assert (t0' = t0) as -> by (apply (task_ids_inj (tasks d)); [done..|congruence]).
  done.
Qed.

(** A task that can never be ready keeps the loop from returning. *)
Lemma run_loop_never_ready digest d did clock fuel max_parallel st t :
  wf_DAG d → t ∈ tasks d → never_ready d t →
  run_loop fuel max_parallel (run_start digest d did clock) ≠ Returned st.
Proof.
  intros Hwf Ht Hnever E.
  destruct (run_loop_final digest d did clock fuel max_parallel st Hwf E)
    as (Hinv & Hord & Hperm & Hex & Hpend).
  destruct Hnever as [Hs|(dep & Hdep & Hbad)]; [by apply Hs, Hpend|].
  assert (dep ∈ ls_completed st) as Hc.
  { assert (task_id t ∈ ls_completed st ++ ls_failed st) as Hin.
    { rewrite Hperm. by apply list_elem_of_fmap_2. }
    apply elem_of_app in Hin as [Hin|Hin].
    - by apply (before_elem_l _ _ (task_id t)), (run_order_before (tasks d) st t).
    - destruct (ro_failed _ _ Hord t Ht Hin) as [_ Hd]. by apply Hd. }
  destruct Hbad as [Hout|(t' & Ht' & <- & msg & Hm)].
  - apply Hout. rewrite <- Hperm. apply elem_of_app. by left.
  - apply list_elem_of_lookup in Hc as [j Hj].
    destruct (ro_completed _ _ Hord j t' Ht' Hj) as [[v Hv] _]. congruence.
Qed.

(** A cycle keeps the loop from returning. *)
Lemma run_loop_cycle digest d did clock fuel max_parallel st :
  wf_DAG d → has_cycle d →
  run_loop fuel max_parallel (run_start digest d did clock) ≠ Returned st.
Proof.
  intros Hwf [x Hx] E.
  destruct (run_loop_final digest d did clock fuel max_parallel st Hwf E)
    as (Hinv & Hord & Hperm & Hex & Hpend).
  assert (NoDup (ls_completed st)) as Hnd.
  { by destruct (NoDup_app (ls_completed st) (ls_failed st)) as [[? _] _];
      [apply (ro_nodup _ _ Hord)|]. }
  assert (∀ t dep, t ∈ tasks d → dep ∈ depends_on t → dep ∈ ls_completed st)
    as Hdeps.
  { intros t dep Ht Hdep.
    assert (task_id t ∈ ls_completed st ++ ls_failed st) as Hin.
    { rewrite Hperm. by apply list_elem_of_fmap_2. }
    apply elem_of_app in Hin as [Hin|Hin].
    - by apply (before_elem_l _ _ (task_id t)), (run_order_before (tasks d) st t).
    - destruct (ro_failed _ _ Hord t Ht Hin) as [_ Hd]. by apply Hd. }
  apply (before_irrefl (ls_completed st) x Hnd).
  apply (tc_dep_edge_before d); [done| |done|].
  - intros t dep Ht Hin Hdep _. by apply (run_order_before (tasks d) st t).
  - assert (∃ y, dep_edge d x y) as (y & t & Ht & _ & Hdep & _).
    { inversion Hx; by eexists. }
    by apply (Hdeps t).
Qed.

(** ** Properties of [run_dag] *)

(** When [run_dag] returns for a registered DAG, the run has dealt with
    every task exactly once: the keys of [tasks_completed] followed by
    those of [tasks_failed] are a permutation of the keys of the mapping;
    every task was [PENDING] when the call began; and every task of the
    DAG that the call leaves has one attempt more, and is [SUCCESS] and
    in [tasks_completed] when its executable returned, [FAILED] and in
    [tasks_failed] when it raised. *)
Theorem run_dag_returns_every_task_executed (digest : string → nat → string)
    (fuel : nat) (e : WorkflowEngine) (did : string) (max_parallel : Z)
    (clock : nat) (d : DAG) (rid : string) (e' : WorkflowEngine) (clock' : nat) :
  dags e !! did = Some d → wf_DAG d →
  run_dag digest fuel e did max_parallel clock = Returned (rid, e', clock') →
  ∃ run d',
    get_run e' rid = Some run ∧ dags e' !! did = Some d'
    ∧ tasks_completed run ++ tasks_failed run ≡ₚ task_ids (tasks d)
    ∧ task_ids (tasks d') = task_ids (tasks d)
    ∧ (∀ t, t ∈ tasks d → status t = PENDING)
    ∧ (∀ t', t' ∈ tasks d' →
         ∃ t, t ∈ tasks d
              ∧ executed_once (tasks_completed run) (tasks_failed run) t t').
Proof.
  intros Hd Hwf Hrun.
  destruct (run_dag_returned _ _ _ _ _ _ _ _ _ _ Hd Hwf Hrun)
    as (st & order & Eloop & Hinv & Hrid & Hrid' & Hdid & ->).
  destruct (run_loop_final digest d did clock fuel max_parallel st Hwf Eloop)
    as (_ & Hord & Hperm & Hex & Hpend).
  exists (run_finish st), {| dag_id := dag_id d; tasks := ls_tasks st;
                             execution_order := order |}.
  unfold get_run. simpl. rewrite !lookup_insert_eq.
  rewrite (ri_completed _ _ Hinv), (ri_failed _ _ Hinv).
  split; [done|]. split; [done|]. split; [done|].
  split; [apply (ri_keys _ _ Hinv)|]. done.
Qed.

Lemma run_dag_returns_every_task_executed_witness :
  ∃ e' clock',
    run_dag digest_of_id 10 (register_dag (new_WorkflowEngine "workflows") failing_dag)
      "failing" 4 0 = Returned ("failing", e', clock')
    ∧ ∃ run d',
        get_run e' "failing" = Some run ∧ dags e' !! "failing" = Some d'
        ∧ tasks_completed run ++ tasks_failed run ≡ₚ task_ids (tasks failing_dag)
        ∧ task_ids (tasks d') = task_ids (tasks failing_dag)
        ∧ (∀ t, t ∈ tasks failing_dag → status t = PENDING)
        ∧ (∀ t', t' ∈ tasks d' →
             ∃ t, t ∈ tasks failing_dag
                  ∧ executed_once (tasks_completed run) (tasks_failed run) t t').
Proof.
  eexists _, _. split; [by vm_compute|].
  eapply (run_dag_returns_every_task_executed digest_of_id 10
            (register_dag (new_WorkflowEngine "workflows") failing_dag)
            "failing" 4 0 failing_dag).
  - by vm_compute.
  - exact failing_dag_wf.
  - by vm_compute.
Defined.

(** When [run_dag] returns for a registered DAG, every dependency of
    every task is in [tasks_completed], where no key is twice, and comes
    there before the task when the task is there too; the dependency
    graph has no cycle. *)
Theorem run_dag_returns_dependencies_first (digest : string → nat → string)
    (fuel : nat) (e : WorkflowEngine) (did : string) (max_parallel : Z)
    (clock : nat) (d : DAG) (rid : string) (e' : WorkflowEngine) (clock' : nat) :
  dags e !! did = Some d → wf_DAG d →
  run_dag digest fuel e did max_parallel clock = Returned (rid, e', clock') →
  ∃ run,
    get_run e' rid = Some run
    ∧ NoDup (tasks_completed run)
    ∧ (∀ t dep, t ∈ tasks d → dep ∈ depends_on t →
         dep ∈ tasks_completed run
         ∧ (task_id t ∈ tasks_completed run →
            before (tasks_completed run) dep (task_id t)))
    ∧ ¬ has_cycle d.
Proof.
  intros Hd Hwf Hrun.
  destruct (run_dag_returned _ _ _ _ _ _ _ _ _ _ Hd Hwf Hrun)
    as (st & order & Eloop & Hinv & Hrid & Hrid' & Hdid & ->).
  destruct (run_loop_final digest d did clock fuel max_parallel st Hwf Eloop)
    as (_ & Hord & Hperm & Hex & Hpend).
  exists (run_finish st). unfold get_run. simpl. rewrite lookup_insert_eq.
  rewrite (ri_completed _ _ Hinv).
  split; [done|]. split; [|split].
  - by destruct (NoDup_app (ls_completed st) (ls_failed st)) as [[? _] _];
      [apply (ro_nodup _ _ Hord)|].
  - intros t dep Ht Hdep.
    assert (task_id t ∈ ls_completed st → before (ls_completed st) dep (task_id t))
      as Hb by (intros Hin; by apply (run_order_before (tasks d) st t)).
    split; [|done].
    assert (task_id t ∈ ls_completed st ++ ls_failed st) as Hin.
    { rewrite Hperm. by apply list_elem_of_fmap_2. }
    apply elem_of_app in Hin as [Hin|Hin].
    + by apply (before_elem_l _ _ (task_id t)), Hb.
    + destruct (ro_failed _ _ Hord t Ht Hin) as [_ Hdeps]. by apply Hdeps.
  - intros Hcyc.
    by apply (run_loop_cycle digest d did clock fuel max_parallel st Hwf Hcyc).
Qed.

Lemma run_dag_returns_dependencies_first_witness :
  ∃ e' clock',
    run_dag digest_of_id 10 (register_dag (new_WorkflowEngine "workflows") sample_dag)
      "sample_dag" 4 0 = Returned ("sample_dag", e', clock')
    ∧ ∃ run,
        get_run e' "sample_dag" = Some run
        ∧ NoDup (tasks_completed run)
        ∧ (∀ t dep, t ∈ tasks sample_dag → dep ∈ depends_on t →
             dep ∈ tasks_completed run
             ∧ (task_id t ∈ tasks_completed run →
                before (tasks_completed run) dep (task_id t)))
        ∧ ¬ has_cycle sample_dag.
Proof.
  eexists _, _. split; [by vm_compute|].
  eapply (run_dag_returns_dependencies_first digest_of_id 10
            (register_dag (new_WorkflowEngine "workflows") sample_dag)
            "sample_dag" 4 0 sample_dag).
  - by vm_compute.
  - exact sample_dag_wf.
  - by vm_compute.
Defined.

(** [run_dag] does not return, whatever the number of iterations allowed,
    when the registered DAG holds a task that can never be ready (it is
    not pending, or it lists a dependency that is no key of the mapping
    or whose task raises), or when the dependency graph has a cycle. *)
Theorem run_dag_blocked_never_returns (digest : string → nat → string)
    (fuel : nat) (e : WorkflowEngine) (did : string) (max_parallel : Z)
    (clock : nat) (d : DAG) :
  dags e !! did = Some d → wf_DAG d →
  (∃ t, t ∈ tasks d ∧ never_ready d t) ∨ has_cycle d →
  run_dag digest fuel e did max_parallel clock = OutOfFuel.
Proof.
  intros Hd Hwf Hblocked. apply (run_dag_no_return _ _ _ _ _ _ d); [done..|].
  intros st. destruct Hblocked as [(t & Ht & Hnever)|Hcyc].
  - by apply (run_loop_never_ready _ _ _ _ _ _ _ t).
  - by apply run_loop_cycle.
Qed.

Lemma blocked_dag_wf : wf_DAG blocked_dag.
Proof. apply (bool_decide_unpack _). by vm_compute. Qed.

Lemma run_dag_blocked_never_returns_witness :
  run_dag digest_of_id 1000
    (register_dag (new_WorkflowEngine "workflows") blocked_dag) "blocked" 4 0
  = OutOfFuel.
Proof.
  apply (run_dag_blocked_never_returns _ _ _ _ _ _ blocked_dag).
  - by vm_compute.
  - exact blocked_dag_wf.
  - left. exists (new_Task "child" always_ok [] ["bad"]). split.
    + apply list_elem_of_further, list_elem_of_here.
    + right. exists "bad". split; [apply list_elem_of_here|]. right.
      exists (new_Task "bad" always_fails [] []).
      split; [apply list_elem_of_here|]. split; [done|]. by exists "boom".
Defined.

(** With [max_parallel] zero or negative, [run_dag] does not return on a
    registered DAG that has a task: the slice [ready_tasks[:max_parallel]]
    always leaves a ready task out. *)
Theorem run_dag_nonpositive_parallel_never_returns
    (digest : string → nat → string) (fuel : nat) (e : WorkflowEngine)
    (did : string) (max_parallel : Z) (clock : nat) (d : DAG) :
  dags e !! did = Some d → wf_DAG d → tasks d ≠ [] → max_parallel ≤ 0 →
  run_dag digest fuel e did max_parallel clock = OutOfFuel.
Proof.
  intros Hd Hwf Hne Hmp. apply (run_dag_no_return _ _ _ _ _ _ d); [done..|].
  intros st. rewrite (run_loop_nonpositive (tasks d) Hwf); [done|done|..].
  - apply run_start_inv.
  - apply run_start_order.
  - unfold handled. simpl. destruct (tasks d); [done|simpl; lia].
Qed.

Lemma run_dag_nonpositive_parallel_never_returns_witness :
  run_dag digest_of_id 1000
    (register_dag (new_WorkflowEngine "workflows") sample_dag) "sample_dag" (-1) 0
  = OutOfFuel.
Proof.
  apply (run_dag_nonpositive_parallel_never_returns _ _ _ _ _ _ sample_dag).
  - by vm_compute.
  - exact sample_dag_wf.
  - done.
  - lia.
Defined.

(** A DAG can be run once: after a call of [run_dag] that returned, a
    second call on the same DAG does not return, since no task is
    [PENDING] any more and nothing sets a status back. *)
Theorem run_dag_second_run_never_returns (digest : string → nat → string)
    (fuel : nat) (e : WorkflowEngine) (did : string) (max_parallel : Z)
    (clock : nat) (d : DAG) (rid : string) (e' : WorkflowEngine) (clock' : nat)
    (fuel2 : nat) (max_parallel2 : Z) (clock2 : nat) :
  dags e !! did = Some d → wf_DAG d → tasks d ≠ [] →
  run_dag digest fuel e did max_parallel clock = Returned (rid, e', clock') →
  run_dag digest fuel2 e' did max_parallel2 clock2 = OutOfFuel.
Proof.
  intros Hd Hwf Hne Hrun.
  destruct (run_dag_returned _ _ _ _ _ _ _ _ _ _ Hd Hwf Hrun)
    as (st & order & Eloop & Hinv & Hrid & Hrid' & Hdid & ->).
  destruct (run_loop_final digest d did clock fuel max_parallel st Hwf Eloop)
    as (_ & Hord & Hperm & Hex & Hpend).
  set (d' := {| dag_id := dag_id d; tasks := ls_tasks st;
                execution_order := order |}).
  assert (wf_DAG d') as Hwf'.
  { unfold wf_DAG. simpl. by rewrite (ri_keys _ _ Hinv). }
  apply (run_dag_no_return _ _ _ _ _ _ d'); [by simpl; rewrite lookup_insert_eq|done|].
  intros st'.
  assert (∃ t, t ∈ ls_tasks st) as [t Ht].
  { pose proof (run_inv_length (tasks d) st Hinv) as Hlen.
    destruct (ls_tasks st) as [|t ts]; [by destruct (tasks d)|].
    exists t. by left. }
  apply (run_loop_never_ready _ _ _ _ _ _ _ t); [done..|].
  left. destruct (Hex t Ht) as (t0 & _ & _ & _ & _ & [(Hs & _)|(Hs & _)]);
    by rewrite Hs.
Qed.

Lemma run_dag_second_run_never_returns_witness :
  ∃ e' clock',
    run_dag digest_of_id 10 (register_dag (new_WorkflowEngine "workflows") sample_dag)
      "sample_dag" 4 0 = Returned ("sample_dag", e', clock')
    ∧ run_dag digest_of_id 1000 e' "sample_dag" 4 clock' = OutOfFuel.
Proof.
  eexists _, _. split; [by vm_compute|].
  eapply (run_dag_second_run_never_returns digest_of_id 10
            (register_dag (new_WorkflowEngine "workflows") sample_dag)
            "sample_dag" 4 0 sample_dag).
  - by vm_compute.
  - exact sample_dag_wf.
  - done.
  - by vm_compute.
Defined.



(** ** The reports of the engine *)


(** After a call of [run_dag] that returned, [get_dag_status] gives the
    DAG id, the number of tasks, the constant "registered", and for each
    key of the mapping, in order, "success" when the key is in
    [tasks_completed] and "failed" when it is in [tasks_failed]: no task
    is reported pending or running. *)
Theorem get_dag_status_after_run (digest : string → nat → string)
    (fuel : nat) (e : WorkflowEngine) (did : string) (max_parallel : Z)
    (clock : nat) (d : DAG) (rid : string) (e' : WorkflowEngine) (clock' : nat) :
  dags e !! did = Some d → wf_DAG d →
  run_dag digest fuel e did max_parallel clock = Returned (rid, e', clock') →
  ∃ run statuses,
    get_run e' rid = Some run
    ∧ get_dag_status e' did
      = StatusOf did (length (tasks d)) "registered" statuses
    ∧ statuses.*1 = task_ids (tasks d)
    ∧ (∀ x s, (x, s) ∈ statuses →
         (s = "success" ∧ x ∈ tasks_completed run)
         ∨ (s = "failed" ∧ x ∈ tasks_failed run)).
Proof.
  intros Hd Hwf Hrun.
  destruct (run_dag_returned _ _ _ _ _ _ _ _ _ _ Hd Hwf Hrun)
    as (st & order & Eloop & Hinv & Hrid & Hrid' & Hdid & ->).
  destruct (run_loop_final digest d did clock fuel max_parallel st Hwf Eloop)
    as (_ & Hord & Hperm & Hex & Hpend).
  eexists (run_finish st), _.
  unfold get_run, get_dag_status. simpl. rewrite !lookup_insert_eq. simpl.
  rewrite (run_inv_length (tasks d) st Hinv).
  rewrite (ri_completed _ _ Hinv), (ri_failed _ _ Hinv).
  split; [done|]. split; [done|]. split.
  - rewrite <- list_fmap_compose. apply (ri_keys _ _ Hinv).
  - intros x s (t & [= -> ->] & Ht)%list_elem_of_fmap.
    destruct (Hex t Ht) as (t0 & _ & _ & _ & _ & [(-> & ? & _)|(-> & ? & _)]);
      [by left|by right].
Qed.

Lemma get_dag_status_after_run_witness :
  ∃ e' clock',
    run_dag digest_of_id 10 (register_dag (new_WorkflowEngine "workflows") failing_dag)
      "failing" 4 0 = Returned ("failing", e', clock')
    ∧ ∃ run statuses,
        get_run e' "failing" = Some run
        ∧ get_dag_status e' "failing"
          = StatusOf "failing" (length (tasks failing_dag)) "registered" statuses
        ∧ statuses.*1 = task_ids (tasks failing_dag)
        ∧ (∀ x s, (x, s) ∈ statuses →
             (s = "success" ∧ x ∈ tasks_completed run)
             ∨ (s = "failed" ∧ x ∈ tasks_failed run)).
Proof.
  eexists _, _. split; [by vm_compute|].
  eapply (get_dag_status_after_run digest_of_id 10
            (register_dag (new_WorkflowEngine "workflows") failing_dag)
            "failing" 4 0 failing_dag).
  - by vm_compute.
  - exact failing_dag_wf.
  - by vm_compute.
Defined.

(** What [list_runs] holds: the records of the registry whose DAG id is
    the one asked for, all of them when none is asked for. *)
Lemma list_runs_elem (e : WorkflowEngine) (did : option string) (r : Run) :
  r ∈ list_runs e did
  ↔ (∃ rid, runs e !! rid = Some r) ∧ (did = None ∨ did = Some (run_dag_id r)).
Proof.
  unfold list_runs. rewrite list_elem_of_filter, list_elem_of_fmap. split.
  - intros [Hf ([rid r'] & -> & Hin%elem_of_map_to_list)]. split; [by exists rid|done].
  - intros [[rid Hr] Hf]. split; [done|]. exists (rid, r).
    split; [done|]. by apply elem_of_map_to_list.
Qed.

(** After a call of [run_dag] that returned, the terminal record of the
    run is in [list_runs()] and in [list_runs(dag_id)] for the DAG that
    was run, and in [list_runs(other)] for no other DAG id. *)
Theorem list_runs_after_run (digest : string → nat → string)
    (fuel : nat) (e : WorkflowEngine) (did : string) (max_parallel : Z)
    (clock : nat) (d : DAG) (rid : string) (e' : WorkflowEngine) (clock' : nat) :
  dags e !! did = Some d → wf_DAG d →
  run_dag digest fuel e did max_parallel clock = Returned (rid, e', clock') →
  ∃ run,
    get_run e' rid = Some run
    ∧ run_completed_at run ≠ None
    ∧ run ∈ list_runs e' None
    ∧ run ∈ list_runs e' (Some did)
    ∧ (∀ other, other ≠ did → run ∉ list_runs e' (Some other)).
Proof.
  intros Hd Hwf Hrun.
  destruct (run_dag_returned _ _ _ _ _ _ _ _ _ _ Hd Hwf Hrun)
    as (st & order & Eloop & Hinv & Hrid & Hrid' & Hdid & ->).
  exists (run_finish st). unfold get_run. simpl. rewrite lookup_insert_eq.
  split; [done|]. split; [done|].
  assert (∃ k, <[rid:=run_finish st]> (runs e) !! k = Some (run_finish st)) as Hk.
  { exists rid. by rewrite lookup_insert_eq. }
  split; [|split].
  - apply list_runs_elem. split; [done|by left].
  - apply list_runs_elem. split; [done|]. right. simpl. by rewrite Hdid.
  - intros other Hne [_ [?|[= Heq]]]%list_runs_elem; [done|].
    simpl in Heq. congruence.
Qed.

Lemma list_runs_after_run_witness :
  ∃ e' clock',
    run_dag digest_of_id 10 (register_dag (new_WorkflowEngine "workflows") failing_dag)
      "failing" 4 0 = Returned ("failing", e', clock')
    ∧ ∃ run,
        get_run e' "failing" = Some run
        ∧ run_completed_at run ≠ None
        ∧ run ∈ list_runs e' None
        ∧ run ∈ list_runs e' (Some "failing")
        ∧ (∀ other, other ≠ "failing" → run ∉ list_runs e' (Some other)).
Proof.
  eexists _, _. split; [by vm_compute|].
  eapply (list_runs_after_run digest_of_id 10
            (register_dag (new_WorkflowEngine "workflows") failing_dag)
            "failing" 4 0 failing_dag).
  - by vm_compute.
  - exact failing_dag_wf.
  - by vm_compute.
Defined.

(** ** The scheduler *)



Lemma should_run_at_fst clock s : (should_run_at clock s).1 = should_run clock s.
Proof.
  unfold should_run_at, should_run.
  destruct (enabled s); simpl; [|done]. by destruct (next_run s).
Qed.

Lemma should_run_at_snd clock s :
  (clock ≤ (should_run_at clock s).2)%nat.
Proof.
  unfold should_run_at.
  destruct (enabled s); simpl; [|done]. destruct (next_run s); simpl; lia.
Qed.

(** A schedule that is due stays due. *)
Lemma should_run_mono clock clock' s :
  (clock ≤ clock')%nat → should_run clock s = true → should_run clock' s = true.
Proof.
  unfold should_run. intros Hle.
  destruct (enabled s); simpl; [|done]. destruct (next_run s) as [t|]; [|done].
  intros Ht%bool_decide_eq_true. apply bool_decide_eq_true. lia.
Qed.

Lemma pending_fold (l : list (string * Schedule)) (pending : list string) (c : nat) :
  NoDup l.*1 → NoDup pending → (∀ did, did ∈ pending → did ∉ l.*1) →
  NoDup (foldl pending_step (pending, c) l).1
  ∧ (c ≤ (foldl pending_step (pending, c) l).2)%nat
  ∧ (∀ did, did ∈ pending → did ∈ (foldl pending_step (pending, c) l).1)
  ∧ (∀ did, did ∈ (foldl pending_step (pending, c) l).1 →
       did ∈ pending
       ∨ ∃ sched, (did, sched) ∈ l
           ∧ should_run (foldl pending_step (pending, c) l).2 sched = true)
  ∧ (∀ did sched, (did, sched) ∈ l → should_run c sched = true →
       did ∈ (foldl pending_step (pending, c) l).1).
Proof.
  revert pending c. induction l as [|[k sch] l IH]; intros pending c Hnd Hp Hdisj.
  { simpl. split; [done|]. split; [done|]. split; [done|]. split; [by left|].
    by intros did sched ?%elem_of_nil. }
  apply NoDup_cons in Hnd as [Hk Hnd]. simpl in Hk.
  assert (k ∉ pending) as Hkp.
  { intros Hin. apply (Hdisj k Hin). by left. }
  assert (pending_step (pending, c) (k, sch)
          = (if should_run c sch then pending ++ [k] else pending,
             (should_run_at c sch).2)) as E.
  { unfold pending_step. simpl. rewrite <- should_run_at_fst.
    by destruct (should_run_at c sch). }
  simpl. rewrite E.
  pose proof (should_run_at_snd c sch) as Hc.
  set (c1 := (should_run_at c sch).2) in *.
  set (pending' := if should_run c sch then pending ++ [k] else pending).
  assert (∀ did, did ∈ pending' →
                 did ∈ pending ∨ (did = k ∧ should_run c sch = true)) as Hcases.
  { unfold pending'. intros did Hin. destruct (should_run c sch); [|by left].
    apply elem_of_app in Hin as [?|?%list_elem_of_singleton]; [by left|by right]. }
  assert (∀ did, did ∈ pending → did ∈ pending') as Hkeep.
  { unfold pending'. intros did Hin. destruct (should_run c sch); [|done].
    apply elem_of_app. by left. }
  assert (NoDup pending') as Hp'.
  { unfold pending'. destruct (should_run c sch); [|done].
    apply NoDup_app. split; [done|]. split; [|apply NoDup_singleton].
    by intros x Hx ->%list_elem_of_singleton. }
  assert (∀ did, did ∈ pending' → did ∉ l.*1) as Hdisj'.
  { intros did [Hin|[-> _]]%Hcases Hl; [|done].
    apply (Hdisj did Hin). by right. }
  destruct (IH pending' c1 Hnd Hp' Hdisj') as (H1 & H2 & H3 & H4 & H5).
  split; [done|]. split; [by apply (Nat.le_trans _ c1)|]. split; [|split].
  - intros did Hin. by apply H3, Hkeep.
  - intros did Hin. destruct (H4 did Hin) as [Hin'|(sched & Hs & Hrun)].
    + apply Hcases in Hin' as [?|[-> Hrun]]; [by left|].
      right. exists sch. split; [by left|].
      by apply (should_run_mono c); [lia|].
    + right. exists sched. split; [by right|done].
  - intros did sched [[= -> ->]|Hin]%elem_of_cons Hrun.
    + apply H3. unfold pending'. rewrite Hrun. apply elem_of_app. right. by left.
    + apply (H5 did sched Hin). by apply (should_run_mono c).
Qed.

Lemma get_pending_runs_spec (clock : nat) (s : Scheduler) :
  NoDup (get_pending_runs clock s).1
  ∧ (clock ≤ (get_pending_runs clock s).2)%nat
  ∧ (∀ did, did ∈ (get_pending_runs clock s).1 →
       ∃ sched, schedules s !! did = Some sched ∧ enabled sched = true
                ∧ should_run (get_pending_runs clock s).2 sched = true)
  ∧ (∀ did sched, schedules s !! did = Some sched →
       should_run clock sched = true → did ∈ (get_pending_runs clock s).1).
Proof.
  unfold get_pending_runs.
  destruct (pending_fold (map_to_list (schedules s)) [] clock)
    as (H1 & H2 & _ & H4 & H5);
    [apply NoDup_fst_map_to_list|apply NoDup_nil_2|by intros did ?%elem_of_nil|].
  split; [done|]. split; [done|]. split.
  - intros did Hin. destruct (H4 did Hin) as [?%elem_of_nil|(sched & Hs & Hrun)];
      [done|].
    exists sched. split; [by apply elem_of_map_to_list|]. split; [|done].
    unfold should_run in Hrun. by destruct (enabled sched).
  - intros did sched Hs Hrun. apply (H5 did sched); [|done].
    by apply elem_of_map_to_list.
Qed.

(** What a poll lists: no DAG id twice; only DAG ids of registered
    schedules that are due when the poll ends; and the DAG id of every
    registered schedule that is due when the poll begins.  A disabled
    schedule is never due. *)
Theorem get_pending_runs_listed (clock : nat) (s : Scheduler) :
  NoDup (get_pending_runs clock s).1
  ∧ (clock ≤ (get_pending_runs clock s).2)%nat
  ∧ (∀ did, did ∈ (get_pending_runs clock s).1 →
       ∃ sched, schedules s !! did = Some sched ∧ enabled sched = true
                ∧ should_run (get_pending_runs clock s).2 sched = true)
  ∧ (∀ did sched, schedules s !! did = Some sched →
       should_run clock sched = true → did ∈ (get_pending_runs clock s).1).
Proof. apply get_pending_runs_spec. Qed.

(** Restarting the scheduler forgets the run times: the registry that
    [_load_schedules] builds from the snapshot just written has the same
    DAG ids with the same kind, interval and flag, but no [last_run] and
    no [next_run], so every enabled schedule is due at once, whatever the
    time. *)
Theorem reload_forgets_run_times (s : Scheduler) (did : string) (now : nat) :
  schedules (load_Scheduler (snapshot (save_schedules s))) !! did
  = reloaded did <$> schedules s !! did
  ∧ should_run now <$> schedules (load_Scheduler (snapshot (save_schedules s))) !! did
    = enabled <$> schedules s !! did.
Proof.
  assert (schedules (load_Scheduler (snapshot (save_schedules s))) !! did
          = reloaded did <$> schedules s !! did) as E.
  { simpl. rewrite map_lookup_imap, lookup_fmap.
    by destruct (schedules s !! did). }
  split; [done|]. rewrite E. destruct (schedules s !! did) as [sched|]; [|done].
  simpl. unfold should_run. simpl. by destruct (enabled sched).
Qed.

(** ** Histories of scheduler calls *)



Lemma list_schedules_snapshot (s : Scheduler) :
  snapshot s = Some (to_dict <$> schedules s) →
  ∀ sd, sd ∈ list_schedules s ↔ ∃ did, snapshot s ≫= (.!! did) = Some sd.
Proof.
  intros -> sd. simpl. unfold list_schedules.
  rewrite list_elem_of_fmap. split.
  - intros (sched & -> & ([did sched'] & -> & Hin%elem_of_map_to_list)%list_elem_of_fmap).
    exists did. by rewrite lookup_fmap, Hin.
  - intros [did Hd]. rewrite lookup_fmap in Hd.
    destruct (schedules s !! did) as [sched|] eqn:E; [|done].
    injection Hd as <-. exists sched. split; [done|].
    apply list_elem_of_fmap. exists (did, sched). split; [done|].
    by apply elem_of_map_to_list.
Qed.


(** ** When a schedule is due *)





(** ** Schedules that are always due, and schedules that are never *)


(** A registered schedule with no period and no [next_run] that is
    enabled. *)
Definition always_due (s : Scheduler) (did : string) : Prop :=
  ∃ sch, schedules s !! did = Some sch ∧ period_of sch = None
         ∧ next_run sch = None ∧ enabled sch = true.

Lemma always_due_pending (s : Scheduler) (did : string) (now : nat) :
  always_due s did → did ∈ (get_pending_runs now s).1.
Proof.
  intros (sch & Hs & _ & Hn & He).
  destruct (get_pending_runs_spec now s) as (_ & _ & _ & H).
  apply (H did sch Hs). unfold should_run. by rewrite He, Hn.
Qed.




(** [disable_schedule] takes a registered schedule out of every poll,
    whatever the time, and changes no other schedule; [enable_schedule]
    then puts back the registry as it was, run times included, for a
    schedule that was enabled. *)
Theorem disable_then_enable (s : Scheduler) (did : string) (sched : Schedule)
    (now : nat) :
  schedules s !! did = Some sched → enabled sched = true →
  ∃ s1 s2,
    disable_schedule s did = Returned s1
    ∧ (did ∉ (get_pending_runs now s1).1)
    ∧ (∀ other, other ≠ did → schedules s1 !! other = schedules s !! other)
    ∧ enable_schedule s1 did = Returned s2
    ∧ schedules s2 = schedules s
    ∧ snapshot s2 = Some (to_dict <$> schedules s).
Proof.
  intros Hs He. unfold disable_schedule. rewrite Hs. eexists _, _.
  split; [done|]. split; [|split].
  - intros Hin.
    destruct (get_pending_runs_spec now
                (save_schedules
                   {| schedules := <[did := with_enabled sched false]> (schedules s);
                      snapshot := snapshot s |})) as (_ & _ & H & _).
    destruct (H did Hin) as (sch & Hsch & Hen & _). simpl in Hsch.
    rewrite lookup_insert_eq in Hsch. by injection Hsch as <-.
  - intros other Hne. simpl. by rewrite lookup_insert_ne.
  - unfold enable_schedule. simpl. rewrite lookup_insert_eq.
    assert (with_enabled (with_enabled sched false) true = sched) as ->.
    { destruct sched. simpl in *. by subst. }
    rewrite insert_insert_eq, insert_id by done. done.
Qed.

Lemma disable_then_enable_witness :
  ∃ s1 s2,
    disable_schedule etl_scheduler "etl" = Returned s1
    ∧ ("etl" ∉ (get_pending_runs 0 s1).1)
    ∧ (∀ other, other ≠ "etl" →
         schedules s1 !! other = schedules etl_scheduler !! other)
    ∧ enable_schedule s1 "etl" = Returned s2
    ∧ schedules s2 = schedules etl_scheduler
    ∧ snapshot s2 = Some (to_dict <$> schedules etl_scheduler).
Proof.
  apply (disable_then_enable etl_scheduler "etl"
           (new_Schedule "etl" "daily" None) 0).
  - reflexivity.
  - reflexivity.
Defined.



(** ** The cron parser *)

Lemma string_app_cons (x : Ascii.ascii) (a b : string) :
  String x a +:+ b = String x (a +:+ b).
Proof. done. Qed.

Lemma string_app_assoc (a b c : string) : (a +:+ b) +:+ c = a +:+ b +:+ c.
Proof.
  induction a as [|x a IH]; [done|]. rewrite !string_app_cons. by f_equal.
Qed.

Lemma string_app_nil_r (a : string) : a +:+ EmptyString = a.
Proof.
  induction a as [|x a IH]; [done|]. rewrite string_app_cons. by f_equal.
Qed.

(** Reading a run of characters that are not white space adds it to the
    word being read. *)
Lemma split_from_no_space (acc w rest : string) :
  no_space w → split_from acc (w +:+ rest) = split_from (acc +:+ w) rest.
Proof.
  revert acc. induction w as [|c w IH]; intros acc Hw.
  { by rewrite string_app_nil_r. }
  destruct Hw as [Hc Hw]. rewrite string_app_cons. simpl.
  rewrite Hc, (IH _ Hw). by rewrite string_app_assoc.
Qed.

(** A space ends the word being read. *)
Lemma split_from_space (acc rest : string) :
  acc ≠ EmptyString →
  split_from acc (" " +:+ rest) = acc :: split_from EmptyString rest.
Proof.
  intros Hne. rewrite string_app_cons. simpl. by rewrite decide_False.
Qed.

(** [split] gives back the words that were joined. *)
Lemma split_join_words (ws : list string) :
  Forall word ws → split (join_words ws) = ws.
Proof.
  unfold split. induction 1 as [|w ws [Hne Hw] Hws IH]; [done|].
  destruct ws as [|w' ws].
  - simpl. rewrite <- (string_app_nil_r w) at 1.
    rewrite split_from_no_space by done. simpl. by rewrite decide_False.
  - change (join_words (w :: w' :: ws))
      with (w +:+ " " +:+ join_words (w' :: ws)).
    rewrite split_from_no_space by done.
    rewrite split_from_space by done. by rewrite IH.
Qed.

Lemma parse_returns (e : string) (sched : Schedule) :
  parse e = Returned sched → sched = new_Schedule "default" "custom" (Some 60).
Proof. unfold parse. destruct (decide _); [done|]. by intros [= <-]. Qed.

(** The parser looks at the number of fields only: on any words joined
    by spaces, [parse] raises [ValueError] when there are fewer than
    five of them and otherwise returns the same schedule, for the DAG
    "default", of kind "custom", with interval 60, whatever the words
    are; [validate] is true exactly when there are five words or more. *)
Theorem parse_counts_fields (ws : list string) :
  Forall word ws →
  parse (join_words ws)
  = (if decide (length ws < 5)%nat
     then Raised (ValueError "Invalid cron expression")
     else Returned (new_Schedule "default" "custom" (Some 60)))
  ∧ validate (join_words ws) = bool_decide (5 ≤ length ws)%nat.
Proof.
  intros Hws. unfold validate, parse. rewrite (split_join_words ws Hws).
  destruct (decide (length ws < 5)%nat).
  - split; [done|]. by rewrite bool_decide_eq_false_2 by lia.
  - split; [done|]. by rewrite bool_decide_eq_true_2 by lia.
Qed.

Lemma parse_counts_fields_witness :
  parse (join_words ["every"; "day"; "at"; "noon"; "please"])
  = (if decide (length ["every"; "day"; "at"; "noon"; "please"] < 5)%nat
     then Raised (ValueError "Invalid cron expression")
     else Returned (new_Schedule "default" "custom" (Some 60)))
  ∧ validate (join_words ["every"; "day"; "at"; "noon"; "please"])
    = bool_decide (5 ≤ length ["every"; "day"; "at"; "noon"; "please"])%nat.
Proof.
  apply (parse_counts_fields ["every"; "day"; "at"; "noon"; "please"]).
  repeat constructor; by vm_compute.
Defined.

(** The schedules that [parse] returns all have the DAG id "default" and
    the kind "custom": adding two of them leaves one entry in the
    registry, under "default", and that schedule has no [next_run], so
    every poll lists it, whatever the time. *)
Theorem parsed_schedules_share_one_entry (e1 e2 : string)
    (sched1 sched2 : Schedule) (clock now : nat) (s : Scheduler) :
  parse e1 = Returned sched1 → parse e2 = Returned sched2 →
  ∃ s1 s2,
    add_schedule clock s sched1 = Returned (s1, clock)
    ∧ add_schedule clock s1 sched2 = Returned (s2, clock)
    ∧ schedules s2
      = <["default" := new_Schedule "default" "custom" (Some 60)]> (schedules s)
    ∧ "default" ∈ (get_pending_runs now s2).1.
Proof.
  intros ->%parse_returns ->%parse_returns. eexists _, _.
  split; [done|]. split; [done|]. simpl. rewrite insert_insert_eq.
  split; [done|]. apply always_due_pending.
  exists (new_Schedule "default" "custom" (Some 60)). simpl.
  by rewrite lookup_insert_eq.
Qed.

Lemma parsed_schedules_share_one_entry_witness :
  ∃ s1 s2,
    add_schedule 0 new_Scheduler (new_Schedule "default" "custom" (Some 60))
    = Returned (s1, 0%nat)
    ∧ add_schedule 0 s1 (new_Schedule "default" "custom" (Some 60))
      = Returned (s2, 0%nat)
    ∧ schedules s2
      = <["default" := new_Schedule "default" "custom" (Some 60)]>
          (schedules new_Scheduler)
    ∧ "default" ∈ (get_pending_runs 5 s2).1.
Proof.
  apply (parsed_schedules_share_one_entry "0 * * * *" "*/5 0 1 1 *").
  - reflexivity.
  - reflexivity.
Defined.

(** ** The trigger manager *)

Lemma filter_ne_absent (l : list string) (x : string) :
  x ∉ l → filter (fun y => y ≠ x) l = l.
Proof.
  induction l as [|y l IH]; intros Hx; [done|].
  apply not_elem_of_cons in Hx as [Hne Hx].
  rewrite filter_cons, decide_True by done. by rewrite IH.
Qed.

Lemma listeners_of_add tm tid did tid' x :
  x ∈ listeners_of (add_listener tm tid did) tid'
  ↔ x ∈ listeners_of tm tid' ∨ (tid = tid' ∧ x = did).
Proof.
  unfold listeners_of. destruct (decide (tid = tid')) as [<-|Hne].
  - destruct (add_listener_lookup tm tid did) as (l & -> & Hin & Hcase). simpl.
    destruct Hcase as [->|[Hout ->]].
    + split; [by left|]. by intros [?|[_ ->]].
    + rewrite elem_of_app, list_elem_of_singleton.
      split; [intros [?| ->]; [by left|by right]|].
      intros [?|[_ ->]]; [by left|by right].
  - rewrite add_listener_lookup_ne by done.
    split; [by left|]. by intros [?|[? _]].
Qed.

Lemma listeners_of_remove tm tid did tid' x :
  x ∈ listeners_of (remove_listener tm tid did) tid'
  ↔ x ∈ listeners_of tm tid' ∧ ¬ (tid = tid' ∧ x = did).
Proof.
  unfold listeners_of, remove_listener.
  destruct (decide (tid = tid')) as [<-|Hne].
  - destruct (listeners tm !! tid) as [l|] eqn:E; simpl.
    + rewrite lookup_insert_eq. simpl. rewrite list_elem_of_filter. split.
      * intros [Hx Hin]. split; [done|]. by intros [_ ->].
      * intros [Hin Hx]. split; [|done]. intros ->. by apply Hx.
    + rewrite ?E. simpl. split; [by intros ?%elem_of_nil|by intros [?%elem_of_nil _]].
  - assert (listeners (match listeners tm !! tid with
                       | Some l =>
                           {| triggers := triggers tm;
                              listeners := <[tid := filter (λ d, d ≠ did) l]>
                                             (listeners tm) |}
                       | None => tm
                       end) !! tid' = listeners tm !! tid') as ->.
    { destruct (listeners tm !! tid); [|done]. simpl.
      by rewrite lookup_insert_ne. }
    split; [|by intros [? _]]. intros Hin. split; [done|]. by intros [? _].
Qed.

Lemma listeners_of_fire clock tm tid pl tid' :
  listeners_of (fire_trigger clock tm tid pl).1.2 tid' = listeners_of tm tid'.
Proof. unfold fire_trigger. by destruct (triggers tm !! tid). Qed.

Lemma tm_after_snoc history c :
  tm_after (history ++ [c]) = tm_step (tm_after history) c.
Proof. unfold tm_after. by rewrite foldl_app. Qed.

Lemma listening_snoc history c tid did :
  listening (history ++ [c]) tid did
  = match c with
    | AddListener t d =>
        if decide (t = tid ∧ d = did) then true else listening history tid did
    | RemoveListener t d =>
        if decide (t = tid ∧ d = did) then false else listening history tid did
    | _ => listening history tid did
    end.
Proof. unfold listening. by rewrite foldl_app. Qed.

Lemma listeners_of_history (history : list tm_call) (tid did : string) :
  did ∈ listeners_of (tm_after history) tid ↔ listening history tid did = true.
Proof.
  induction history as [|c history IH] using rev_ind.
  { unfold listeners_of, tm_after, listening. simpl. rewrite lookup_empty. simpl.
    split; [by intros ?%elem_of_nil|done]. }
  rewrite tm_after_snoc, listening_snoc.
  destruct c as [t|t d|t d|clock t pl]; simpl.
  - done.
  - rewrite listeners_of_add, IH.
    destruct (decide (t = tid ∧ d = did)) as [[-> ->]|Hne].
    + split; [done|]. intros _. by right.
    + split; [|by left]. intros [?|[? ?]]; [done|]. destruct Hne. by split.
  - rewrite listeners_of_remove, IH.
    destruct (decide (t = tid ∧ d = did)) as [[-> ->]|Hne].
    + split; [|done]. intros [_ Hn]. by destruct Hn.
    + split; [by intros [? _]|]. intros Hl. split; [done|].
      intros [? ?]. apply Hne. by split.
  - by rewrite listeners_of_fire.
Qed.

(** The listener lists are sets.  After any history of calls on a new
    trigger manager, a DAG id is among the listeners of a trigger id
    exactly when the last call of [add_listener] or [remove_listener]
    for the pair is an [add_listener], and no list holds a DAG id
    twice. *)
Theorem listeners_are_sets (history : list tm_call) (tid did : string) :
  (did ∈ listeners_of (tm_after history) tid ↔ listening history tid did = true)
  ∧ NoDup (listeners_of (tm_after history) tid).
Proof.
  split; [apply listeners_of_history|].
  unfold listeners_of.
  destruct (listeners (tm_after history) !! tid) as [l|] eqn:E; simpl.
  - by apply (tm_after_nodup history tid).
  - apply NoDup_nil_2.
Qed.

(** [remove_listener] undoes [add_listener] for a DAG id that was not
    listening: the listeners of every trigger id are what they were, in
    the same order. *)
Theorem add_then_remove_listener (tm : TriggerManager) (tid did tid' : string) :
  did ∉ listeners_of tm tid →
  listeners_of (remove_listener (add_listener tm tid did) tid did) tid'
  = listeners_of tm tid'.
Proof.
  intros Hout. unfold listeners_of in *.
  destruct (add_listener_lookup tm tid did) as (l & E & Hin & Hcase).
  pose proof (add_listener_lookup_ne tm tid did tid') as Hother.
  remember (add_listener tm tid did) as tm1 eqn:Etm1.
  unfold remove_listener. rewrite E. simpl.
  destruct (decide (tid = tid')) as [<-|Hne].
  - rewrite lookup_insert_eq. simpl.
    destruct Hcase as [->|[_ ->]]; [by rewrite filter_ne_absent|].
    rewrite filter_app, filter_cons, filter_nil, decide_False by (by intros ?).
    rewrite app_nil_r. by rewrite filter_ne_absent.
  - rewrite lookup_insert_ne by done. by rewrite Hother.
Qed.

Lemma add_then_remove_listener_witness :
  listeners_of (remove_listener
                  (add_listener (add_listener new_TriggerManager "t" "a") "t" "b")
                  "t" "b") "t"
  = listeners_of (add_listener new_TriggerManager "t" "a") "t".
Proof.
  apply (add_then_remove_listener (add_listener new_TriggerManager "t" "a")).
  apply (bool_decide_unpack _). by vm_compute.
Defined.

(** [fire_trigger] answers by the registry of triggers alone.  For a
    registered trigger it returns the firing, with the id and the type
    of the trigger, the time read, the payload, and the listeners of the
    trigger id as they are; it stamps the trigger, so that [get_trigger]
    reports the time of the firing, and changes neither another trigger
    nor any listener. *)
Theorem fire_trigger_registered (clock : nat) (tm : TriggerManager)
    (tid : string) (pl : list (string * PyVal)) (t : Trigger) :
  triggers tm !! tid = Some t →
  ∃ f tm',
    fire_trigger clock tm tid pl = (Some f, tm', S clock)
    ∧ f_trigger_id f = trigger_id t
    ∧ f_trigger_type f = trigger_type t
    ∧ fired_at f = clock ∧ payload f = pl
    ∧ triggered_dags f = listeners_of tm tid
    ∧ listeners tm' = listeners tm
    ∧ (tr_last_triggered <$> get_trigger tm' tid) = Some (Some clock)
    ∧ (∀ other, other ≠ tid → get_trigger tm' other = get_trigger tm other).
Proof.
  intros Ht. unfold fire_trigger. rewrite Ht. eexists _, _.
  split; [done|]. simpl. unfold get_trigger. simpl.
  rewrite lookup_insert_eq. repeat (split; [done|]).
  intros other Hne. by rewrite lookup_insert_ne.
Qed.

Lemma fire_trigger_registered_witness :
  ∃ f tm',
    fire_trigger 5
      (add_listener (register_trigger new_TriggerManager
                       (new_Trigger 0 "manual_1" MANUAL []).1) "manual_1" "my_dag")
      "manual_1" [("user", PyStr "admin")]
    = (Some f, tm', 6%nat)
    ∧ f_trigger_id f = trigger_id (new_Trigger 0 "manual_1" MANUAL []).1
    ∧ f_trigger_type f = trigger_type (new_Trigger 0 "manual_1" MANUAL []).1
    ∧ fired_at f = 5%nat ∧ payload f = [("user", PyStr "admin")]
    ∧ triggered_dags f
      = listeners_of (add_listener (register_trigger new_TriggerManager
                        (new_Trigger 0 "manual_1" MANUAL []).1) "manual_1" "my_dag")
                     "manual_1"
    ∧ listeners tm'
      = listeners (add_listener (register_trigger new_TriggerManager
                     (new_Trigger 0 "manual_1" MANUAL []).1) "manual_1" "my_dag")
    ∧ (tr_last_triggered <$> get_trigger tm' "manual_1") = Some (Some 5%nat)
    ∧ (∀ other, other ≠ "manual_1" →
         get_trigger tm' other
         = get_trigger (add_listener (register_trigger new_TriggerManager
                          (new_Trigger 0 "manual_1" MANUAL []).1)
                          "manual_1" "my_dag") other).
Proof.
  apply (fire_trigger_registered 5 _ "manual_1" [("user", PyStr "admin")]
           (new_Trigger 0 "manual_1" MANUAL []).1).
  reflexivity.
Defined.

(** A listener can be added for a trigger id that is not registered, and
    the trigger still does not fire: [fire_trigger] returns [None] and
    changes nothing, whatever listeners the id has. *)
Theorem fire_trigger_needs_registration (clock : nat) (tm : TriggerManager)
    (tid did : string) (pl : list (string * PyVal)) :
  triggers tm !! tid = None →
  did ∈ listeners_of (add_listener tm tid did) tid
  ∧ fire_trigger clock (add_listener tm tid did) tid pl
    = (None, add_listener tm tid did, clock).
Proof.
  intros Ht. split.
  - apply listeners_of_add. by right.
  - unfold fire_trigger. simpl. by rewrite Ht.
Qed.

Lemma fire_trigger_needs_registration_witness :
  "dag" ∈ listeners_of (add_listener new_TriggerManager "missing" "dag") "missing"
  ∧ fire_trigger 0 (add_listener new_TriggerManager "missing" "dag") "missing" []
    = (None, add_listener new_TriggerManager "missing" "dag", 0%nat).
Proof. apply fire_trigger_needs_registration. reflexivity. Defined.

(** ** The task mapping *)

Lemma tasks_get_set ts t other :
  tasks_get (tasks_set ts t) other
  = if decide (task_id t = other) then Some t else tasks_get ts other.
Proof.
  induction ts as [|x ts IH]; simpl.
  - by destruct (decide (task_id t = other)).
  - destruct (decide (task_id x = task_id t)) as [Heq|Hne]; simpl.
    + rewrite Heq. by destruct (decide (task_id t = other)).
    + rewrite IH. destruct (decide (task_id x = other)) as [Hx|Hx]; [|done].
      rewrite decide_False; [done|congruence].
Qed.

(** [add_task] keeps the task mapping a mapping.  A task whose id is a
    key already replaces the task that was there, at the same place, and
    a task with a new id goes to the end; the mapping then gives the
    task for its id and what it gave before for every other id. *)
Theorem add_task_replaces_or_appends (d : DAG) (t : Task) :
  wf_DAG d →
  wf_DAG (add_task d t)
  ∧ task_ids (tasks (add_task d t))
    = (if decide (task_id t ∈ task_ids (tasks d)) then task_ids (tasks d)
       else task_ids (tasks d) ++ [task_id t])
  ∧ tasks_get (tasks (add_task d t)) (task_id t) = Some t
  ∧ (∀ other, other ≠ task_id t →
       tasks_get (tasks (add_task d t)) other = tasks_get (tasks d) other).
Proof.
  intros Hwf. split; [by apply add_task_wf|]. split; [apply tasks_set_ids|].
  simpl. split.
  - by rewrite tasks_get_set, decide_True.
  - intros other Hne. by rewrite tasks_get_set, decide_False.
Qed.

Lemma add_task_replaces_or_appends_witness :
  wf_DAG (add_task sample_dag (new_Task "task_2" always_fails [] []))
  ∧ task_ids (tasks (add_task sample_dag (new_Task "task_2" always_fails [] [])))
    = (if decide (task_id (new_Task "task_2" always_fails [] [])
                  ∈ task_ids (tasks sample_dag))
       then task_ids (tasks sample_dag)
       else task_ids (tasks sample_dag)
            ++ [task_id (new_Task "task_2" always_fails [] [])])
  ∧ tasks_get (tasks (add_task sample_dag (new_Task "task_2" always_fails [] [])))
      (task_id (new_Task "task_2" always_fails [] []))
    = Some (new_Task "task_2" always_fails [] [])
  ∧ (∀ other, other ≠ task_id (new_Task "task_2" always_fails [] []) →
       tasks_get (tasks (add_task sample_dag (new_Task "task_2" always_fails [] [])))
         other
       = tasks_get (tasks sample_dag) other).
Proof.
  apply (add_task_replaces_or_appends sample_dag
           (new_Task "task_2" always_fails [] [])).
  exact sample_dag_wf.
Defined.

(** ** The handler of runs *)


